(** * lf.DiffCalculator: detecting and applying the difference between the
    old and the new results of an observed query.

    A shallow embedding of [lib/diff_calculator.js].  JavaScript arrays are
    lists, object references are natural numbers, the observed array lives
    in a small store that is threaded through [applyDiff], and an exception
    raised by a collaborator is the [Throw] outcome of a computation. *)

From Stdlib Require Import List Arith Bool Lia Sorted Relations.
Import ListNotations.

Set Implicit Arguments.

(** ** Outcomes of JavaScript computations *)

(** A call either returns a value or throws. *)
Inductive result (A : Type) : Type :=
| Ok (a : A)
| Throw.

Arguments Ok {A} a.
Arguments Throw {A}.

Definition rbind {A B : Type} (c : result A) (k : A -> result B) : result B :=
  match c with
  | Ok a => k a
  | Throw => Throw
  end.

Definition result_map {A B : Type} (f : A -> B) (c : result A) : result B :=
  match c with
  | Ok a => Ok (f a)
  | Throw => Throw
  end.

(** [Array.prototype.every]: the callback is applied from the first element
    on, and the walk stops at the first element it rejects. *)
Fixpoint every {A : Type} (callback : A -> result bool) (l : list A)
  : result bool :=
  match l with
  | [] => Ok true
  | x :: rest =>
      rbind (callback x)
            (fun b => if b then every callback rest else Ok false)
  end.

(** ** The longest common subsequence *)

Section LongestCommonSubsequence.

Variables A B T : Type.
Variable equalFn : A -> B -> result bool.
Variable collectFn : nat -> nat -> T.

(** Modelled from the spec: [goog.math.longestCommonSubsequence] belongs
    to the Closure Library and is missing from the sources; only its call
    sites in [applyDiff] are there.  Cells [1..m] of row [i] of the length
    table, from row [i-1] ([above], whose head is column [j-1]) and the
    cell to the [left]: [table[i][j] = table[i-1][j-1] + 1] if
    [equalFn(A[i-1], B[j-1])], else
    [max(table[i-1][j], table[i][j-1])]. *)
Fixpoint table_row (a : A) (sequenceB : list B) (above : list nat)
         (left : nat) : result (list nat) :=
  match sequenceB, above with
  | b :: restB, diag :: ((up :: _) as above') =>
      rbind (equalFn a b) (fun same =>
      let value := if same then diag + 1 else Nat.max up left in
      rbind (table_row a restB above' value) (fun rest =>
      Ok (value :: rest)))
  | _, _ => Ok []
  end.

(** Modelled from the spec: rows [1..n] of the length table of the missing
    [goog.math.longestCommonSubsequence], one per element of
    [sequenceA]; column 0 of every row is 0. *)
Fixpoint table_rows (sequenceA : list A) (sequenceB : list B)
         (above : list nat) : result (list (list nat)) :=
  match sequenceA with
  | [] => Ok []
  | a :: restA =>
      rbind (table_row a sequenceB above 0) (fun cells =>
      let current := 0 :: cells in
      rbind (table_rows restA sequenceB current) (fun rows =>
      Ok (current :: rows)))
  end.

(** Modelled from the spec: the length table over the prefixes of the two
    sequences of the missing [goog.math.longestCommonSubsequence]; row 0
    is all zeros. *)
Definition lcs_table (sequenceA : list A) (sequenceB : list B)
  : result (list (list nat)) :=
  let row0 := repeat 0 (S (length sequenceB)) in
  rbind (table_rows sequenceA sequenceB row0) (fun rows =>
  Ok (row0 :: rows)).

(** Modelled from the spec: the cell [table[i][j]] of the length table of
    the missing [goog.math.longestCommonSubsequence]. *)
Definition cell (table : list (list nat)) (i j : nat) : nat :=
  nth j (nth i table []) 0.

(** Modelled from the spec: the reconstruction of the matching path of the
    missing [goog.math.longestCommonSubsequence].  It walks backward from
    cell [(i, j)]: the diagonal step whenever [equalFn] holds at the cell,
    collecting the matched index pair in front of what was collected so
    far; otherwise the neighbour with the larger table value, a tie going
    up (consuming [sequenceA] first).  The walk ends at row 0 or column
    0.  A cell outside the two sequences, which no walk from [table[n][m]]
    reaches, has no elements to compare: the walk throws there. *)
Fixpoint backtrack (sequenceA : list A) (sequenceB : list B)
         (table : list (list nat)) (i : nat)
  : nat -> list T -> result (list T) :=
  match i with
  | 0 => fun _ acc => Ok acc
  | S i' =>
      fix walk_row (j : nat) (acc : list T) : result (list T) :=
        match j with
        | 0 => Ok acc
        | S j' =>
            match nth_error sequenceA i', nth_error sequenceB j' with
            | Some a, Some b =>
                rbind (equalFn a b) (fun same =>
                if same then
                  backtrack sequenceA sequenceB table i' j'
                            (collectFn i' j' :: acc)
                else if cell table i' (S j') <? cell table (S i') j' then
                  walk_row j' acc
                else
                  backtrack sequenceA sequenceB table i' (S j') acc)
            | _, _ => Throw
            end
        end
  end.

(** Modelled from the spec: [goog.math.longestCommonSubsequence(array1,
    array2, compareFn, collectorFn)], missing from the sources: the table
    is built, then the path is reconstructed from [table[n][m]]. *)
Definition longestCommonSubsequence (sequenceA : list A)
           (sequenceB : list B) : result (list T) :=
  rbind (lcs_table sequenceA sequenceB) (fun table =>
  backtrack sequenceA sequenceB table
            (length sequenceA) (length sequenceB) []).

(** The index pair [(i, j)] is a match: both indices are in range and
    [equalFn] holds on the two elements. *)
Definition matched (sequenceA : list A) (sequenceB : list B)
           (pair : nat * nat) : Prop :=
  exists a b,
    nth_error sequenceA (fst pair) = Some a /\
    nth_error sequenceB (snd pair) = Some b /\
    equalFn a b = Ok true.

(** The length of a longest common subsequence of the first [i] elements of
    the one sequence and the first [j] elements of the other, by the
    recurrence of the length table. *)
Fixpoint lcs_length (sequenceA : list A) (sequenceB : list B) (i : nat)
  : nat -> nat :=
  match i with
  | 0 => fun _ => 0
  | S i' =>
      fix along_row (j : nat) : nat :=
        match j with
        | 0 => 0
        | S j' =>
            match nth_error sequenceA i', nth_error sequenceB j' with
            | Some a, Some b =>
                match equalFn a b with
                | Ok true => S (lcs_length sequenceA sequenceB i' j')
                | _ => Nat.max (lcs_length sequenceA sequenceB i' (S j'))
                           (along_row j')
                end
            | _, _ => 0
            end
        end
  end.

End LongestCommonSubsequence.

(** The collector that keeps the matched index pair itself. *)
Definition index_pair (i j : nat) : nat * nat := (i, j).

(** Index pairs in increasing order on both sides. *)
Definition before_pair (p q : nat * nat) : Prop :=
  fst p < fst q /\ snd p < snd q.

(** A list obtained from another by dropping elements. *)
Inductive subseq {X : Type} : list X -> list X -> Prop :=
| subseq_nil : subseq [] []
| subseq_skip : forall x k l, subseq k l -> subseq k (x :: l)
| subseq_take : forall x k l, subseq k l -> subseq (x :: k) (x :: l).

(** The elements at the odd indices of a list: the second, the fourth, and
    so on. *)
Fixpoint odd_positions {X : Type} (l : list X) : list X :=
  match l with
  | _ :: y :: rest => y :: odd_positions rest
  | _ => []
  end.

(** ** Computations on a store *)

(** A computation reads and updates a store of type [Store]; when it throws,
    the updates made so far stay. *)
Definition StateExc (Store A : Type) : Type := Store -> result A * Store.

Definition ret {Store A : Type} (a : A) : StateExc Store A := fun s => (Ok a, s).

Definition bind {Store A B : Type} (c : StateExc Store A) (k : A -> StateExc Store B)
  : StateExc Store B :=
  fun s =>
    match c s with
    | (Ok a, s') => k a s'
    | (Throw, s') => (Throw, s')
    end.

Definition lift {Store A : Type} (c : result A) : StateExc Store A :=
  fun s => (c, s).

Declare Scope stexc_scope.
Delimit Scope stexc_scope with stexc.
Notation "x <- c ;; k" := (bind c (fun x => k))
  (at level 61, c at next level, right associativity) : stexc_scope.
Notation "c ;; k" := (bind c (fun _ => k))
  (at level 61, right associativity) : stexc_scope.

(** [for (var i = i0; i < array.length; i++) { var x = array[i]; body }],
    for an [array] the body leaves alone; [locals] are the variables that
    the body assigns. *)
Fixpoint for_each {Store X L : Type} (body : nat -> X -> L -> StateExc Store L)
         (i : nat) (array : list X) (locals : L) : StateExc Store L :=
  match array with
  | [] => ret locals
  | x :: rest =>
      bind (body i x locals) (fun locals' => for_each body (S i) rest locals')
  end.

Section DiffCalculator.

(** *** Collaborators that live outside this file *)

(** [lf.Type], the values stored in a field, the payload object of a row,
    [lf.schema.Column] with its [getType()], and [lf.eval.Type] with its
    member [EQ]. *)
Variables DataType Value Payload Column EvalType : Type.
Variable getType : Column -> DataType.
Variable EQ : EvalType.

(** [lf.schema.Table]: only [getColumns()] is used. *)
Record Table : Type := { getColumns : list Column }.

(** [lf.query.SelectContext]: the projected columns, the tables of the
    [from] clause and the table of the inner join, which is absent when
    the property is undefined or null. *)
Record SelectContext : Type := {
  columns : list Column;
  from : list Table;
  innerJoin : option Table
}.

(** [lf.eval.Registry]: [getEvaluator(columnType, evaluatorType)] gives the
    evaluator function, and [None] stands for the registry failing to
    resolve one (the call throws). *)
Record Registry : Type := {
  getEvaluator : DataType -> EvalType -> option (Value -> Value -> bool)
}.

(** [lf.Global]: [getService(lf.service.EVAL_REGISTRY)]. *)
Record Global : Type := { getService_EVAL_REGISTRY : Registry }.

(** [lf.Row] with its [payload()]. *)
Record Row : Type := { payload : Payload }.

(** [lf.proc.RelationEntry]: the [row] property and [getField(column)]. *)
Record RelationEntry : Type := {
  row : Row;
  getField : Column -> Value
}.

(** Entries are objects: an array of entries holds references, and [==]
    on two entries compares the references.  [deref] is the part of the
    JavaScript heap that holds the entries; [applyDiff] only reads it. *)
Definition EntryRef : Type := nat.
Variable deref : EntryRef -> RelationEntry.

(** [lf.proc.Relation]: the [entries] array. *)
Record Relation : Type := { entries : list EntryRef }.

(** A reference to an array of payloads. *)
Definition ArrayRef : Type := nat.

(** *** The calculator object *)

Record DiffCalculator : Type := {
  evalRegistry_ : Registry;
  query_ : SelectContext;
  observableResults_ : ArrayRef;
  columns_ : list Column
}.

(** [lf.DiffCalculator.prototype.detectColumns_].  It reads [this.query_]
    only, which is its argument here.  [columns.push(column)] appends. *)
Definition detectColumns_ (query_ : SelectContext) : list Column :=
  if 0 <? length (columns query_) then
    columns query_
  else
    let tables :=
      from query_ ++
      match innerJoin query_ with
      | Some table => [table]
      | None => []
      end in
    fold_left
      (fun columns table =>
         fold_left (fun columns column => columns ++ [column])
                   (getColumns table) columns)
      tables [].

(** The constructor [lf.DiffCalculator(global, query, observableResults)]. *)
Definition new_DiffCalculator (global : Global) (query : SelectContext)
           (observableResults : ArrayRef) : DiffCalculator :=
  {| evalRegistry_ := getService_EVAL_REGISTRY global;
     query_ := query;
     observableResults_ := observableResults;
     columns_ := detectColumns_ query |}.

(** The callback that [comparator_] hands to [every]. *)
Definition compareColumn (this : DiffCalculator) (left right : EntryRef)
           (column : Column) : result bool :=
  match getEvaluator (evalRegistry_ this) (getType column) EQ with
  | Some evalFn =>
      Ok (evalFn (getField (deref left) column)
                 (getField (deref right) column))
  | None => Throw
  end.

(** [lf.DiffCalculator.prototype.comparator_]. *)
Definition comparator_ (this : DiffCalculator) (left right : EntryRef)
  : result bool :=
  every (compareColumn this left right) (columns_ this).

(** *** The store *)

(** A record of one call of [splice] that changed an array, as an
    observer of the array receives it. *)
Record Change : Type := {
  index : nat;
  removed : list Payload;
  added : list Payload
}.

(** The calculator object, the arrays of payloads by reference (the
    observed array among them) and the changes made so far. *)
Record State : Type := {
  self : DiffCalculator;
  arrays : ArrayRef -> list Payload;
  changes : list Change
}.

Definition M (A : Type) : Type := StateExc State A.

Definition get_this : M DiffCalculator := fun s => (Ok (self s), s).

(** [Array.prototype.splice(start, deleteCount, ...items)] on the array
    behind a reference; [start] and [deleteCount] are clamped to the
    array.  It returns the removed elements.  A call that removes and adds
    nothing changes nothing. *)
Definition splice (array : ArrayRef) (start deleteCount : nat)
           (items : list Payload) : M (list Payload) :=
  fun s =>
    let elements := arrays s array in
    let gone := firstn deleteCount (skipn start elements) in
    let elements' :=
      firstn start elements ++ items ++
      skipn (start + deleteCount) elements in
    (Ok gone,
     {| self := self s;
        arrays := fun r => if r =? array then elements' else arrays s r;
        changes :=
          changes s ++
          match gone, items with
          | [], [] => []
          | _, _ =>
              [{| index := Nat.min start (length elements);
                  removed := gone;
                  added := items |}]
          end |}).

(** [value == entry] for an [entry] object and a [value] read from an
    array of entries: [None] is [undefined], the value of a read past the
    end. *)
Definition same_object (value : option EntryRef) (entry : EntryRef)
  : bool :=
  match value with
  | Some other => other =? entry
  | None => false
  end.

(** The body of the first loop of [applyDiff]. *)
Definition deletion_body (longestCommonSubsequenceLeft : list (option EntryRef))
           (i : nat) (entry : EntryRef) (commonIndex : nat) : M nat :=
  if same_object (nth commonIndex longestCommonSubsequenceLeft None) entry
  then ret (commonIndex + 1)
  else
    (this <- get_this ;;
     splice (observableResults_ this) i 1 [] ;;
     ret commonIndex)%stexc.

(** The body of the second loop of [applyDiff]. *)
Definition insertion_body
           (longestCommonSubsequenceRight : list (option EntryRef))
           (i : nat) (entry : EntryRef) (commonIndex : nat) : M nat :=
  if same_object (nth commonIndex longestCommonSubsequenceRight None) entry
  then ret (commonIndex + 1)
  else
    (this <- get_this ;;
     splice (observableResults_ this) i 0 [payload (row (deref entry))] ;;
     ret commonIndex)%stexc.

(** [lf.DiffCalculator.prototype.applyDiff]; [None] is a null
    [oldResults].  The two collectors read an array of entries at an index,
    and the value of such a read is an entry or [undefined]. *)
Definition applyDiff (oldResults : option Relation) (newResults : Relation)
  : M unit :=
  (this <- get_this ;;
   let oldEntries :=
     match oldResults with
     | None => []
     | Some results => entries results
     end in
   longestCommonSubsequenceLeft <-
     lift (longestCommonSubsequence
             (comparator_ this)
             (fun indexLeft indexRight => nth_error oldEntries indexLeft)
             oldEntries (entries newResults)) ;;
   for_each (deletion_body longestCommonSubsequenceLeft) 0 oldEntries 0 ;;
   longestCommonSubsequenceRight <-
     lift (longestCommonSubsequence
             (comparator_ this)
             (fun indexLeft indexRight =>
                nth_error (entries newResults) indexRight)
             oldEntries (entries newResults)) ;;
   for_each (insertion_body longestCommonSubsequenceRight) 0
            (entries newResults) 0 ;;
   ret tt)%stexc.

(** *** Notions used to state what [applyDiff] does *)

(** The entries that [applyDiff] takes for the old results. *)
Definition oldEntries_of (oldResults : option Relation) : list EntryRef :=
  match oldResults with
  | None => []
  | Some results => entries results
  end.

(** The first and the second call of [longestCommonSubsequence] in
    [applyDiff]: the kept entries of the old side and of the new side. *)
Definition keepOld_of (this : DiffCalculator)
           (oldEntries newEntries : list EntryRef)
  : result (list (option EntryRef)) :=
  longestCommonSubsequence
    (comparator_ this)
    (fun indexLeft indexRight => nth_error oldEntries indexLeft)
    oldEntries newEntries.

Definition keepNew_of (this : DiffCalculator)
           (oldEntries newEntries : list EntryRef)
  : result (list (option EntryRef)) :=
  longestCommonSubsequence
    (comparator_ this)
    (fun indexLeft indexRight => nth_error newEntries indexRight)
    oldEntries newEntries.

(** The contents of the observed array. *)
Definition observed (s : State) : list Payload :=
  arrays s (observableResults_ (self s)).

(** The payloads of a list of entries, in order. *)
Definition payloads (l : list EntryRef) : list Payload :=
  map (fun entry => payload (row (deref entry))) l.

(** Removing the element at a position of a sequence; a position past the
    end has no element to remove. *)
Fixpoint remove_at (i : nat) (l : list Payload) : list Payload :=
  match l, i with
  | [], _ => []
  | _ :: rest, 0 => rest
  | x :: rest, S i' => x :: remove_at i' rest
  end.

(** Inserting an element at a position of a sequence; a position past the
    end appends. *)
Fixpoint insert_at (i : nat) (x : Payload) (l : list Payload)
  : list Payload :=
  match i, l with
  | 0, _ => x :: l
  | S _, [] => [x]
  | S i', y :: rest => y :: insert_at i' x rest
  end.

(** The contents that the insertion pass aims at: walking the new entries
    with the kept ones, a kept entry stands for the payload that is already
    [present] for it, any other entry for its own payload. *)
Fixpoint weave (rest kept : list EntryRef) (present : list Payload)
  : list Payload :=
  match rest with
  | [] => []
  | entry :: rest' =>
      match kept, present with
      | k :: kept', p :: present' =>
          if k =? entry then p :: weave rest' kept' present'
          else payload (row (deref entry)) :: weave rest' kept present
      | _, _ => payload (row (deref entry)) :: weave rest' kept present
      end
  end.

(** The state of a pass of the patch as the specification words it:
    the index [i] into the walked entries, the cursor [c] into the kept
    entries, and the observed sequence. *)
Definition pass_state : Type := (nat * nat * list Payload)%type.

(** One step of the deletion pass, worded after the specification: an old
    entry that is the instance under the cursor is retained and the cursor
    advances; for any other one element is removed from the sequence, the
    element [x] at the entry's index [i], and the cursor stays.  A sequence
    without an element at index [i] has no removal step. *)
Inductive deletion_step (oldEntries : list EntryRef)
          (keepOld : list (option EntryRef))
  : pass_state -> pass_state -> Prop :=
| deletion_retain : forall i c sequence entry,
    nth_error oldEntries i = Some entry ->
    nth_error keepOld c = Some (Some entry) ->
    deletion_step oldEntries keepOld (i, c, sequence) (S i, S c, sequence)
| deletion_remove : forall i c before x after entry,
    nth_error oldEntries i = Some entry ->
    nth_error keepOld c <> Some (Some entry) ->
    length before = i ->
    deletion_step oldEntries keepOld
                  (i, c, before ++ x :: after) (S i, c, before ++ after).

(** One step of the insertion pass, worded after the specification: a new
    entry that is the instance under the cursor is already present and the
    cursor advances; for any other the payload of the entry is inserted into
    the sequence so that it stands at the entry's index [i], and the cursor
    stays.  A sequence with fewer than [i] elements has no insertion
    step. *)
Inductive insertion_step (newEntries : list EntryRef)
          (keepNew : list (option EntryRef))
  : pass_state -> pass_state -> Prop :=
| insertion_present : forall i c sequence entry,
    nth_error newEntries i = Some entry ->
    nth_error keepNew c = Some (Some entry) ->
    insertion_step newEntries keepNew (i, c, sequence) (S i, S c, sequence)
| insertion_insert : forall i c before after entry,
    nth_error newEntries i = Some entry ->
    nth_error keepNew c <> Some (Some entry) ->
    length before = i ->
    insertion_step newEntries keepNew
                   (i, c, before ++ after)
                   (S i, c, before ++ payload (row (deref entry)) :: after).

(** A change that removes exactly one element or adds exactly one. *)
Definition single_element (change : Change) : Prop :=
  (exists x, removed change = [x] /\ added change = []) \/
  (exists x, removed change = [] /\ added change = [x]).

(** What a recorded change does to the contents of the array. *)
Definition apply_change (l : list Payload) (change : Change)
  : list Payload :=
  firstn (index change) l ++ added change ++
  skipn (index change + length (removed change)) l.

(** The store [s'] comes from the store [s] by single-element changes of
    the observed array and by nothing else: the calculator object and the
    other arrays are the same, and the contents of the observed array are
    those of [s] after the changes recorded since, each of which removes
    or adds one element. *)
Definition patched (s s' : State) : Prop :=
  self s' = self s /\
  (forall r, r <> observableResults_ (self s) -> arrays s' r = arrays s r) /\
  exists made,
    changes s' = changes s ++ made /\
    Forall single_element made /\
    observed s' = fold_left apply_change made (observed s).

(** The change that adds the payload of an entry at a position. *)
Definition addition (i : nat) (entry : EntryRef) : Change :=
  {| index := i; removed := []; added := [payload (row (deref entry))] |}.

(** The additions of the entries of a list at consecutive positions from
    [i] on. *)
Fixpoint additions_from (i : nat) (l : list EntryRef) : list Change :=
  match l with
  | [] => []
  | entry :: rest => addition i entry :: additions_from (S i) rest
  end.

(** The number of elements that the recorded changes removed, and the
    number they added. *)
Definition removals (l : list Change) : nat :=
  list_sum (map (fun change => length (removed change)) l).

Definition insertions (l : list Change) : nat :=
  list_sum (map (fun change => length (added change)) l).

End DiffCalculator.

(** ** A small database used in the examples *)

(** Entry [r] projects the identifier [r mod 10] on every column and carries
    the payload [100 + r]: entries [3] and [13] are two objects whose
    projected fields are equal and whose payloads differ. *)
Definition sample_deref (r : EntryRef) : RelationEntry nat nat nat :=
  {| row := {| payload := 100 + r |}; getField := fun _ => r mod 10 |}.

(** A registry with one evaluator, equality of numbers, for the data type
    [0] only. *)
Definition sample_registry : Registry nat nat unit :=
  {| getEvaluator := fun type _ =>
       match type with
       | 0 => Some Nat.eqb
       | _ => None
       end |}.

(** The data type of a column is the column's number. *)
Definition sample_getType (column : nat) : nat := column.

Definition sample_global : Global nat nat unit :=
  {| getService_EVAL_REGISTRY := sample_registry |}.

(** A query that projects column [0]. *)
Definition sample_query : SelectContext nat :=
  {| columns := [0]; from := []; innerJoin := None |}.

(** The observed array is array [7] of the store. *)
Definition sample_calculator : DiffCalculator nat nat nat unit :=
  new_DiffCalculator sample_global sample_query 7.

Definition sample_state (contents : list nat) : State nat nat nat nat unit :=
  {| self := sample_calculator;
     arrays := fun r => if r =? 7 then contents else [];
     changes := [] |}.

(** A query that projects columns [0] and [1]; the registry has no evaluator
    for the type of column [1]. *)
Definition sample_wide_query : SelectContext nat :=
  {| columns := [0; 1]; from := []; innerJoin := None |}.

Definition sample_wide_calculator : DiffCalculator nat nat nat unit :=
  new_DiffCalculator sample_global sample_wide_query 7.

(** A registry whose evaluator for the data type [0] rejects the value [9]
    against every value, [9] itself included, the way the equality of
    numbers rejects NaN against NaN. *)
Definition sample_nan_registry : Registry nat nat unit :=
  {| getEvaluator := fun type _ =>
       match type with
       | 0 => Some (fun a b => (a =? b) && negb (a =? 9))
       | _ => None
       end |}.

Definition sample_nan_calculator : DiffCalculator nat nat nat unit :=
  new_DiffCalculator {| getService_EVAL_REGISTRY := sample_nan_registry |}
                     sample_query 7.

Definition sample_nan_state (contents : list nat)
  : State nat nat nat nat unit :=
  {| self := sample_nan_calculator;
     arrays := fun r => if r =? 7 then contents else [];
     changes := [] |}.

(** A select-all query over one table that has no column. *)
Definition sample_bare_query : SelectContext nat :=
  {| columns := []; from := [{| getColumns := [] |}]; innerJoin := None |}.

Definition sample_bare_state (contents : list nat)
  : State nat nat nat nat unit :=
  {| self := new_DiffCalculator sample_global sample_bare_query 7;
     arrays := fun r => if r =? 7 then contents else [];
     changes := [] |}.

(** A select-all query over one table with column [0], joined with another
    table with column [0]. *)
Definition sample_tables_query : SelectContext nat :=
  {| columns := [];
     from := [{| getColumns := [0] |}];
     innerJoin := Some {| getColumns := [0] |} |}.

(** The entries of [sample_deref], except that the entries below 10 carry
    the payload [0]. *)
Definition sample_deref_stale (r : EntryRef) : RelationEntry nat nat nat :=
  {| row := {| payload := if r <? 10 then 0 else 100 + r |};
     getField := fun _ => r mod 10 |}.

Definition sample_applyDiff (oldResults : option Relation)
           (newResults : Relation) : M nat nat nat nat unit unit :=
  applyDiff sample_getType tt sample_deref oldResults newResults.

Unset Implicit Arguments.

(** ** Facts about [every] *)

Section EveryFacts.

Context {A : Type}.
Variable callback : A -> result bool.

Lemma every_true_iff (l : list A) :
  every callback l = Ok true <-> forall x, In x l -> callback x = Ok true.
Proof.
  induction l as [|x rest IH]; simpl.
  - split; [intros _ y [] | reflexivity].
  - destruct (callback x) as [[|]|] eqn:Hx; simpl.
    + rewrite IH. split.
      * intros H y [<-|Hy]; [exact Hx | now apply H].
      * intros H y Hy. apply H. now right.
    + split; [discriminate |].
      intros H. specialize (H x (or_introl eq_refl)). congruence.
    + split; [discriminate |].
      intros H. specialize (H x (or_introl eq_refl)). congruence.
Qed.

(** The walk stops at the first rejected element: what comes after it is
    never looked at. *)
Lemma every_stops (before after : list A) (x : A) :
  (forall y, In y before -> callback y = Ok true) ->
  callback x = Ok false ->
  every callback (before ++ x :: after) = Ok false.
Proof.
  intros Hbefore Hx. induction before as [|y before IH]; simpl.
  - now rewrite Hx.
  - rewrite (Hbefore y (or_introl eq_refl)). simpl.
    apply IH. intros z Hz. apply Hbefore. now right.
Qed.

Lemma every_ext (callback' : A -> result bool) (l : list A) :
  (forall x, In x l -> callback' x = callback x) ->
  every callback' l = every callback l.
Proof.
  induction l as [|x rest IH]; simpl; intros H; [reflexivity |].
  rewrite (H x (or_introl eq_refl)).
  destruct (callback x) as [[|]|]; simpl; try reflexivity.
  apply IH. intros y Hy. apply H. now right.
Qed.

Lemma every_total (l : list A) :
  (forall x, In x l -> callback x <> Throw) -> every callback l <> Throw.
Proof.
  induction l as [|x rest IH]; simpl; intros H; [discriminate |].
  destruct (callback x) as [[|]|] eqn:Hx; simpl.
  - apply IH. intros y Hy. apply H. now right.
  - discriminate.
  - exfalso. now apply (H x (or_introl eq_refl)).
Qed.

End EveryFacts.

(** ** Subsequences *)

Section SubseqFacts.

Context {X : Type}.

Lemma subseq_nil_l (l : list X) : subseq [] l.
Proof. induction l; constructor; assumption. Qed.

Lemma subseq_refl (l : list X) : subseq l l.
Proof. induction l; constructor; assumption. Qed.

Lemma subseq_length (k l : list X) : subseq k l -> length k <= length l.
Proof. induction 1; simpl; lia. Qed.

Lemma subseq_In (k l : list X) (x : X) : subseq k l -> In x k -> In x l.
Proof.
  induction 1; simpl; intros Hin; auto.
  destruct Hin; auto.
Qed.

Lemma subseq_same_length (k l : list X) :
  subseq k l -> length l <= length k -> k = l.
Proof.
  induction 1 as [|x k l Hsub IH|x k l Hsub IH]; simpl; intros Hlen.
  - reflexivity.
  - apply subseq_length in Hsub. lia.
  - f_equal. apply IH. lia.
Qed.

Lemma subseq_app (k1 l1 k2 l2 : list X) :
  subseq k1 l1 -> subseq k2 l2 -> subseq (k1 ++ k2) (l1 ++ l2).
Proof.
  induction 1; simpl; intros H2;
    [exact H2 | apply subseq_skip | apply subseq_take]; auto.
Qed.

(** The head of a list without repetition is taken or skipped, never both. *)
Lemma subseq_head_taken (e : X) (k l : list X) :
  NoDup (e :: l) -> subseq (e :: k) (e :: l) -> subseq k l.
Proof.
  intros Hnd Hsub. inversion Hsub as [|x k' l' Hskip|x k' l' Htake]; subst.
  - exfalso. inversion Hnd as [|y l' Hnotin _]; subst. apply Hnotin.
    apply (subseq_In _ _ _ Hskip). now left.
  - exact Htake.
Qed.

Lemma subseq_head_skipped (e x : X) (k l : list X) :
  x <> e -> subseq (x :: k) (e :: l) -> subseq (x :: k) l.
Proof.
  intros Hne Hsub. inversion Hsub; subst; [assumption | congruence].
Qed.

Lemma subseq_snoc_inv (k l : list X) (a : X) :
  subseq k (l ++ [a]) ->
  subseq k l \/ exists k', k = k' ++ [a] /\ subseq k' l.
Proof.
  revert k. induction l as [|x l IH]; simpl; intros k Hsub.
  - inversion Hsub as [|y k' l' Hskip|y k' l' Htake]; subst.
    + inversion Hskip; subst. left. constructor.
    + inversion Htake; subst. right. exists []. split; [reflexivity | constructor].
  - inversion Hsub as [|y k' l' Hskip|y k' l' Htake]; subst.
    + destruct (IH _ Hskip) as [H|(k' & -> & H)].
      * left. now constructor.
      * right. exists k'. split; [reflexivity | now apply subseq_skip].
    + destruct (IH _ Htake) as [H|(k'' & -> & H)].
      * left. now apply subseq_take.
      * right. exists (x :: k''). split; [reflexivity | now apply subseq_take].
Qed.

Lemma subseq_app_l (k1 k2 l : list X) : subseq (k1 ++ k2) l -> subseq k1 l.
Proof.
  revert k1. induction l as [|x l IH]; intros k1 Hsub.
  - inversion Hsub as [Hnil| |]. symmetry in Hnil.
    apply app_eq_nil in Hnil. destruct Hnil as [-> _]. constructor.
  - destruct k1 as [|y k1]; [apply subseq_nil_l |].
    simpl in Hsub. inversion Hsub; subst.
    + apply subseq_skip. now apply IH.
    + apply subseq_take. now apply IH.
Qed.

Lemma subseq_init (k l : list X) (x a : X) :
  subseq (k ++ [x]) (l ++ [a]) -> subseq k l.
Proof.
  intros Hsub. destruct (subseq_snoc_inv _ _ _ Hsub) as [H|(k' & Heq & H)].
  - now apply subseq_app_l in H.
  - apply app_inj_tail in Heq. destruct Heq as [-> _]. exact H.
Qed.

End SubseqFacts.

(** ** The resolved columns and the comparator *)

Section ProjectionFacts.

Context {DataType Value Payload Column EvalType : Type}.
Variable getType : Column -> DataType.
Variable EQ : EvalType.
Variable deref : EntryRef -> RelationEntry Value Payload Column.

Lemma push_each (l acc : list Column) :
  fold_left (fun columns column => columns ++ [column]) l acc = acc ++ l.
Proof.
  revert acc. induction l as [|column l IH]; intros acc; simpl.
  - now rewrite app_nil_r.
  - rewrite IH, <- app_assoc. reflexivity.
Qed.

Lemma push_each_table (tables : list (Table Column)) (acc : list Column) :
  fold_left
    (fun columns table =>
       fold_left (fun columns column => columns ++ [column])
                 (getColumns table) columns)
    tables acc
  = acc ++ concat (map (@getColumns Column) tables).
Proof.
  revert acc. induction tables as [|table tables IH]; intros acc; simpl.
  - now rewrite app_nil_r.
  - rewrite IH, push_each, <- app_assoc. reflexivity.
Qed.

(** Select-all: the columns of the tables, table after table, then those of
    the joined table. *)
Lemma detectColumns_select_all (query : SelectContext Column) :
  columns query = [] ->
  detectColumns_ query =
  concat (map (@getColumns Column) (from query)) ++
  match innerJoin query with
  | Some table => getColumns table
  | None => []
  end.
Proof.
  unfold detectColumns_. intros ->. simpl. rewrite push_each_table. simpl.
  rewrite map_app, concat_app.
  destruct (innerJoin query); simpl; now rewrite ?app_nil_r.
Qed.

(** C6.  A non-empty list of projected columns is the resolved list, as it
    is; otherwise the resolved list is the columns of the tables of the
    from clause, table after table, followed by the columns of the joined
    table when there is one, nothing dropped and nothing reordered.  A
    table with columns a, b joined with a table with column c resolves to
    a, b, c. *)
Theorem detectColumns_resolution (query : SelectContext Column) :
  (columns query <> [] -> detectColumns_ query = columns query) /\
  (columns query = [] ->
   detectColumns_ query =
   concat (map (@getColumns Column) (from query)) ++
   match innerJoin query with
   | Some table => getColumns table
   | None => []
   end) /\
  (forall a b c : Column,
      detectColumns_
        {| columns := [];
           from := [{| getColumns := [a; b] |}];
           innerJoin := Some {| getColumns := [c] |} |}
      = [a; b; c]).
Proof.
  repeat split.
  - unfold detectColumns_. intros Hne.
    destruct (columns query); [congruence | reflexivity].
  - apply detectColumns_select_all.
Qed.

(** The comparator accepts a pair of entries exactly when every resolved
    column has an evaluator that accepts the two field values. *)
Lemma comparator_true_iff (this : DiffCalculator DataType Value Column EvalType)
      (left right : EntryRef) :
  comparator_ getType EQ deref this left right = Ok true <->
  forall column, In column (columns_ this) ->
    exists evalFn,
      getEvaluator (evalRegistry_ this) (getType column) EQ = Some evalFn /\
      evalFn (getField (deref left) column) (getField (deref right) column)
      = true.
Proof.
  unfold comparator_. rewrite every_true_iff.
  split; intros H column Hin; specialize (H column Hin);
    unfold compareColumn in *.
  - destruct (getEvaluator _ _ _) as [evalFn|]; [|discriminate].
    exists evalFn. split; [reflexivity | congruence].
  - destruct H as (evalFn & -> & ->). reflexivity.
Qed.

(** C5.  The comparator returns true exactly when, for every resolved
    column, the evaluator that the registry gives for the column's type
    and EQ holds on the two entries' values of the column.  It stops at
    the first column whose evaluator rejects the values: the answer is
    false whatever the columns after it are, even columns without an
    evaluator.  Entries with the same values on the resolved columns get
    the same answer, whatever their identity, their payload and their
    other fields are. *)
Theorem comparator_spec (this : DiffCalculator DataType Value Column EvalType)
        (left right : EntryRef) :
  (comparator_ getType EQ deref this left right = Ok true <->
   forall column, In column (columns_ this) ->
     exists evalFn,
       getEvaluator (evalRegistry_ this) (getType column) EQ = Some evalFn /\
       evalFn (getField (deref left) column) (getField (deref right) column)
       = true) /\
  (forall before column after evalFn,
      columns_ this = before ++ column :: after ->
      (forall c, In c before ->
                 compareColumn getType EQ deref this left right c = Ok true) ->
      getEvaluator (evalRegistry_ this) (getType column) EQ = Some evalFn ->
      evalFn (getField (deref left) column) (getField (deref right) column)
      = false ->
      comparator_ getType EQ deref this left right = Ok false) /\
  (forall (deref' : EntryRef -> RelationEntry Value Payload Column)
          (left' right' : EntryRef),
      (forall column, In column (columns_ this) ->
         getField (deref' left') column = getField (deref left) column /\
         getField (deref' right') column = getField (deref right) column) ->
      comparator_ getType EQ deref' this left' right'
      = comparator_ getType EQ deref this left right).
Proof.
  split; [apply comparator_true_iff | split].
  - intros before column after evalFn Hcols Hbefore Hev Hfalse.
    unfold comparator_. rewrite Hcols.
    apply every_stops; [exact Hbefore |].
    unfold compareColumn. rewrite Hev, Hfalse. reflexivity.
  - intros deref' left' right' Hsame. unfold comparator_.
    apply every_ext. intros column Hin.
    destruct (Hsame column Hin) as [Hl Hr].
    unfold compareColumn. now rewrite Hl, Hr.
Qed.

(** When the registry has an evaluator for the type of every resolved
    column, the comparator returns. *)
Lemma comparator_returns (this : DiffCalculator DataType Value Column EvalType)
      (left right : EntryRef) :
  (forall column, In column (columns_ this) ->
     getEvaluator (evalRegistry_ this) (getType column) EQ <> None) ->
  comparator_ getType EQ deref this left right <> Throw.
Proof.
  intros Hres. unfold comparator_. apply every_total.
  intros column Hin. unfold compareColumn.
  specialize (Hres column Hin).
  destruct (getEvaluator _ _ _); [discriminate | congruence].
Qed.

(** When the evaluators accept each field value of an entry against itself,
    the comparator does not reject the entry compared with itself. *)
Lemma comparator_reflexive (this : DiffCalculator DataType Value Column EvalType)
      (entry : EntryRef) :
  (forall column evalFn,
      In column (columns_ this) ->
      getEvaluator (evalRegistry_ this) (getType column) EQ = Some evalFn ->
      evalFn (getField (deref entry) column) (getField (deref entry) column)
      = true) ->
  comparator_ getType EQ deref this entry entry <> Ok false.
Proof.
  intros Hrefl. unfold comparator_.
  induction (columns_ this) as [|column rest IH]; simpl; [discriminate |].
  unfold compareColumn at 1.
  destruct (getEvaluator _ _ _) as [evalFn|] eqn:Hev; simpl; [|discriminate].
  rewrite (Hrefl column evalFn (or_introl eq_refl) Hev).
  apply IH. intros c f Hin. apply Hrefl. now right.
Qed.

(** Without resolved columns the comparator accepts every pair. *)
Lemma comparator_nil (this : DiffCalculator DataType Value Column EvalType)
      (left right : EntryRef) :
  columns_ this = [] -> comparator_ getType EQ deref this left right = Ok true.
Proof. unfold comparator_. now intros ->. Qed.

End ProjectionFacts.

(** ** The longest common subsequence: what the reconstruction returns *)

Section LcsFacts.

Context {A B : Type}.
Variable equalFn : A -> B -> result bool.
Variables (sequenceA : list A) (sequenceB : list B).

Lemma table_row_returns (a : A) (l : list B) (above : list nat) (left : nat) :
  (forall b, In b l -> equalFn a b <> Throw) ->
  exists cells, table_row equalFn a l above left = Ok cells.
Proof.
  revert above left.
  induction l as [|b l IH]; intros above left Hok; simpl; [now eexists |].
  destruct above as [|diag [|up above]]; try now eexists.
  destruct (equalFn a b) as [same|] eqn:Hab;
    [|exfalso; now apply (Hok b (or_introl eq_refl))].
  simpl.
  destruct (IH (up :: above) (if same then diag + 1 else Nat.max up left))
    as [cells ->]; [intros b' Hb'; apply Hok; now right |].
  simpl. now eexists.
Qed.

Lemma table_rows_returns (l : list A) (above : list nat) :
  (forall a b, In a l -> In b sequenceB -> equalFn a b <> Throw) ->
  exists rows, table_rows equalFn l sequenceB above = Ok rows.
Proof.
  revert above. induction l as [|a l IH]; intros above Hok; simpl;
    [now eexists |].
  destruct (table_row_returns a sequenceB above 0) as [cells ->];
    [intros b Hb; apply Hok; [now left | exact Hb] |].
  simpl.
  destruct (IH (0 :: cells)) as [rows ->];
    [intros a' b Ha' Hb; apply Hok; [now right | exact Hb] |].
  simpl. now eexists.
Qed.

Lemma lcs_table_returns :
  (forall a b, In a sequenceA -> In b sequenceB -> equalFn a b <> Throw) ->
  exists table, lcs_table equalFn sequenceA sequenceB = Ok table.
Proof.
  intros Hok. unfold lcs_table.
  destruct (table_rows_returns sequenceA (repeat 0 (S (length sequenceB))) Hok)
    as [rows ->].
  simpl. now eexists.
Qed.

Section Reconstruction.

Variable T : Type.
Variable collectFn : nat -> nat -> T.
Variable table : list (list nat).

Local Notation "'walk'" :=
  (backtrack equalFn collectFn sequenceA sequenceB table).

Lemma backtrack_row0 (j : nat) (acc : list T) : walk 0 j acc = Ok acc.
Proof. reflexivity. Qed.

Lemma backtrack_column0 (i : nat) (acc : list T) : walk i 0 acc = Ok acc.
Proof. destruct i; reflexivity. Qed.

Lemma backtrack_cell (i j : nat) (acc : list T) :
  walk (S i) (S j) acc =
  match nth_error sequenceA i, nth_error sequenceB j with
  | Some a, Some b =>
      rbind (equalFn a b) (fun same =>
      if same then walk i j (collectFn i j :: acc)
      else if cell table i (S j) <? cell table (S i) j
           then walk (S i) j acc
           else walk i (S j) acc)
  | _, _ => Throw
  end.
Proof. reflexivity. Qed.

End Reconstruction.

(** Induction along the cells that the walk can visit. *)
Lemma walk_ind (P : nat -> nat -> Prop) :
  (forall j, P 0 j) ->
  (forall i, P i 0) ->
  (forall i j, P i j -> P (S i) j -> P i (S j) -> P (S i) (S j)) ->
  forall i j, P i j.
Proof.
  intros Hrow Hcol Hcell. induction i as [|i IHi]; [exact Hrow |].
  induction j as [|j IHj]; [apply Hcol |].
  apply Hcell; [apply IHi | exact IHj | apply IHi].
Qed.

Lemma nth_error_below {X : Type} (l : list X) (i : nat) :
  i < length l -> exists x, nth_error l i = Some x.
Proof.
  intros Hlt. destruct (nth_error l i) as [x|] eqn:Hx; [now exists x |].
  apply nth_error_None in Hx. lia.
Qed.

(** The walk returns when [equalFn] does. *)
Lemma backtrack_returns (T : Type) (collectFn : nat -> nat -> T)
      (table : list (list nat)) :
  (forall a b, In a sequenceA -> In b sequenceB -> equalFn a b <> Throw) ->
  forall i j,
    i <= length sequenceA -> j <= length sequenceB ->
    forall acc, exists r,
      backtrack equalFn collectFn sequenceA sequenceB table i j acc = Ok r.
Proof.
  intros Hok i j. pattern i, j. apply walk_ind; clear i j.
  - intros j _ _ acc. now exists acc.
  - intros i _ _ acc. exists acc. apply backtrack_column0.
  - intros i j IHdiag IHleft IHup Hi Hj acc. rewrite backtrack_cell.
    destruct (nth_error_below sequenceA i Hi) as [a Ha].
    destruct (nth_error_below sequenceB j Hj) as [b Hb].
    rewrite Ha, Hb.
    destruct (equalFn a b) as [same|] eqn:Hab; simpl.
    + destruct same; [apply IHdiag; lia |].
      destruct (_ <? _); [apply IHleft | apply IHup]; lia.
    + exfalso. apply (Hok a b); eauto using nth_error_In.
Qed.

(** A collector only renames the matched index pairs: the path does not
    depend on it. *)
Lemma backtrack_collect (T : Type) (collectFn : nat -> nat -> T)
      (table : list (list nat)) (i j : nat) :
  forall acc,
    backtrack equalFn collectFn sequenceA sequenceB table i j
              (map (fun p => collectFn (fst p) (snd p)) acc)
    = result_map (map (fun p => collectFn (fst p) (snd p)))
                 (backtrack equalFn index_pair sequenceA sequenceB table
                            i j acc).
Proof.
  pattern i, j. apply walk_ind; clear i j.
  - reflexivity.
  - intros i acc. now rewrite !backtrack_column0.
  - intros i j IHdiag IHleft IHup acc. rewrite !backtrack_cell.
    destruct (nth_error sequenceA i) as [a|]; [|reflexivity].
    destruct (nth_error sequenceB j) as [b|]; [|reflexivity].
    destruct (equalFn a b) as [[|]|]; simpl; [| |reflexivity].
    + apply (IHdiag (index_pair i j :: acc)).
    + destruct (_ <? _); [apply IHleft | apply IHup].
Qed.

(** Every pair on the path is a match. *)
Lemma backtrack_matched (table : list (list nat)) (i j : nat) :
  forall acc r,
    backtrack equalFn index_pair sequenceA sequenceB table i j acc = Ok r ->
    Forall (matched equalFn sequenceA sequenceB) acc ->
    Forall (matched equalFn sequenceA sequenceB) r.
Proof.
  pattern i, j. apply walk_ind; clear i j.
  - intros j acc r [= <-]. auto.
  - intros i acc r. rewrite backtrack_column0. intros [= <-]. auto.
  - intros i j IHdiag IHleft IHup acc r. rewrite backtrack_cell.
    destruct (nth_error sequenceA i) as [a|] eqn:Ha; [|discriminate].
    destruct (nth_error sequenceB j) as [b|] eqn:Hb; [|discriminate].
    destruct (equalFn a b) as [[|]|] eqn:Hab; simpl; [| |discriminate].
    + intros Hr Hacc. apply (IHdiag _ _ Hr). constructor; [|exact Hacc].
      exists a, b. auto.
    + destruct (_ <? _); [apply IHleft | apply IHup].
Qed.

(** The pairs on the path increase on both sides. *)
Lemma backtrack_sorted (table : list (list nat)) (i j : nat) :
  forall acc r,
    backtrack equalFn index_pair sequenceA sequenceB table i j acc = Ok r ->
    StronglySorted before_pair acc ->
    Forall (fun p => i <= fst p /\ j <= snd p) acc ->
    StronglySorted before_pair r.
Proof.
  pattern i, j. apply walk_ind; clear i j.
  - intros j acc r [= <-]. auto.
  - intros i acc r. rewrite backtrack_column0. intros [= <-]. auto.
  - intros i j IHdiag IHleft IHup acc r. rewrite backtrack_cell.
    destruct (nth_error sequenceA i) as [a|]; [|discriminate].
    destruct (nth_error sequenceB j) as [b|]; [|discriminate].
    destruct (equalFn a b) as [[|]|]; simpl; [| |discriminate].
    + intros Hr Hsorted Hbound. apply (IHdiag _ _ Hr).
      * constructor; [exact Hsorted |].
        eapply Forall_impl; [|exact Hbound].
        intros p [H1 H2]. unfold before_pair, index_pair. simpl. lia.
      * constructor; [simpl; lia |].
        eapply Forall_impl; [|exact Hbound]. simpl. intros p. lia.
    + destruct (_ <? _); intros Hr Hsorted Hbound.
      * apply (IHleft _ _ Hr Hsorted).
        eapply Forall_impl; [|exact Hbound]. simpl. intros p. lia.
      * apply (IHup _ _ Hr Hsorted).
        eapply Forall_impl; [|exact Hbound]. simpl. intros p. lia.
Qed.

(** From a cell of the diagonal, when [equalFn] rejects no pair of the
    diagonal, the walk matches every index with itself. *)
Lemma backtrack_diagonal (T : Type) (collectFn : nat -> nat -> T)
      (table : list (list nat)) :
  (forall k a b,
      nth_error sequenceA k = Some a -> nth_error sequenceB k = Some b ->
      equalFn a b <> Ok false) ->
  forall i acc,
    i <= length sequenceA -> i <= length sequenceB ->
    backtrack equalFn collectFn sequenceA sequenceB table i i acc = Throw \/
    backtrack equalFn collectFn sequenceA sequenceB table i i acc
    = Ok (map (fun k => collectFn k k) (seq 0 i) ++ acc).
Proof.
  intros Hdiag. induction i as [|i IH]; intros acc Hi Hi'.
  - now right.
  - rewrite backtrack_cell.
    destruct (nth_error_below sequenceA i Hi) as [a Ha].
    destruct (nth_error_below sequenceB i Hi') as [b Hb].
    rewrite Ha, Hb.
    destruct (equalFn a b) as [[|]|] eqn:Hab; cbn [rbind].
    + destruct (IH (collectFn i i :: acc)) as [->| ->]; [lia | lia | now left |].
      right. rewrite seq_S, map_app, <- app_assoc. reflexivity.
    + exfalso. exact (Hdiag i a b Ha Hb Hab).
    + now left.
Qed.

(** *** The same facts for a whole run *)

Lemma lcs_returns (T : Type) (collectFn : nat -> nat -> T) :
  (forall a b, In a sequenceA -> In b sequenceB -> equalFn a b <> Throw) ->
  exists r,
    longestCommonSubsequence equalFn collectFn sequenceA sequenceB = Ok r.
Proof.
  intros Hok. unfold longestCommonSubsequence.
  destruct (lcs_table_returns Hok) as [table ->]. simpl.
  now apply backtrack_returns.
Qed.

Lemma lcs_collect (T : Type) (collectFn : nat -> nat -> T) :
  longestCommonSubsequence equalFn collectFn sequenceA sequenceB
  = result_map (map (fun p => collectFn (fst p) (snd p)))
               (longestCommonSubsequence equalFn index_pair
                                         sequenceA sequenceB).
Proof.
  unfold longestCommonSubsequence.
  destruct (lcs_table equalFn sequenceA sequenceB) as [table|]; simpl;
    [|reflexivity].
  apply (backtrack_collect T collectFn table _ _ []).
Qed.

Lemma lcs_matched (pairs : list (nat * nat)) :
  longestCommonSubsequence equalFn index_pair sequenceA sequenceB = Ok pairs ->
  Forall (matched equalFn sequenceA sequenceB) pairs /\
  StronglySorted before_pair pairs.
Proof.
  unfold longestCommonSubsequence.
  destruct (lcs_table equalFn sequenceA sequenceB) as [table|]; simpl;
    [|discriminate].
  intros Hr. split.
  - apply (backtrack_matched _ _ _ _ _ Hr). constructor.
  - apply (backtrack_sorted _ _ _ _ _ Hr); constructor.
Qed.

Lemma lcs_diagonal (T : Type) (collectFn : nat -> nat -> T) :
  length sequenceA = length sequenceB ->
  (forall k a b,
      nth_error sequenceA k = Some a -> nth_error sequenceB k = Some b ->
      equalFn a b <> Ok false) ->
  longestCommonSubsequence equalFn collectFn sequenceA sequenceB = Throw \/
  longestCommonSubsequence equalFn collectFn sequenceA sequenceB
  = Ok (map (fun k => collectFn k k) (seq 0 (length sequenceA))).
Proof.
  intros Hlen Hdiag. unfold longestCommonSubsequence.
  destruct (lcs_table equalFn sequenceA sequenceB) as [table|]; simpl;
    [|now left].
  rewrite <- Hlen.
  destruct (backtrack_diagonal T collectFn table Hdiag (length sequenceA) [])
    as [->| ->]; [lia | lia | now left |].
  right. now rewrite app_nil_r.
Qed.

(** *** The run returns a common subsequence *)

Lemma firstn_snoc {X : Type} (l : list X) (i : nat) (x : X) :
  nth_error l i = Some x -> firstn (S i) l = firstn i l ++ [x].
Proof.
  revert i. induction l as [|y l IH]; intros [|i]; simpl; try discriminate.
  - now intros [= ->].
  - intros H. f_equal. now apply IH.
Qed.

(** The walk returns a common subsequence: the elements at the left indices
    of the path, in order, are a subsequence of the first sequence, those at
    the right indices a subsequence of the second, and [equalFn] holds pair
    by pair. *)
Lemma backtrack_subseq (table : list (list nat)) (i j : nat) :
  forall acc r,
    backtrack equalFn index_pair sequenceA sequenceB table i j acc = Ok r ->
    exists ps keptA keptB,
      r = ps ++ acc /\
      map (fun p => nth_error sequenceA (fst p)) ps = map Some keptA /\
      map (fun p => nth_error sequenceB (snd p)) ps = map Some keptB /\
      subseq keptA (firstn i sequenceA) /\
      subseq keptB (firstn j sequenceB) /\
      Forall2 (fun a b => equalFn a b = Ok true) keptA keptB.
Proof.
  pattern i, j. apply walk_ind; clear i j.
  - intros j acc r [= <-]. exists [], [], []. simpl.
    repeat split; try constructor. apply subseq_nil_l.
  - intros i acc r. rewrite backtrack_column0. intros [= <-].
    exists [], [], []. simpl. repeat split; try constructor. apply subseq_nil_l.
  - intros i j IHdiag IHleft IHup acc r. rewrite backtrack_cell.
    destruct (nth_error sequenceA i) as [a|] eqn:Ha; [|discriminate].
    destruct (nth_error sequenceB j) as [b|] eqn:Hb; [|discriminate].
    rewrite (firstn_snoc _ _ _ Ha), (firstn_snoc _ _ _ Hb).
    destruct (equalFn a b) as [[|]|] eqn:Hab; simpl; [| |discriminate].
    + intros Hr.
      destruct (IHdiag _ _ Hr) as (ps & kA & kB & -> & HA & HB & HsA & HsB & Hall).
      exists (ps ++ [index_pair i j]), (kA ++ [a]), (kB ++ [b]).
      rewrite <- app_assoc, !map_app, HA, HB. simpl. rewrite Ha, Hb.
      repeat split.
      * apply subseq_app; [exact HsA | apply subseq_refl].
      * apply subseq_app; [exact HsB | apply subseq_refl].
      * apply Forall2_app; [exact Hall | now constructor].
    + destruct (_ <? _); intros Hr.
      * destruct (IHleft _ _ Hr) as (ps & kA & kB & -> & HA & HB & HsA & HsB & Hall).
        exists ps, kA, kB. repeat split; try assumption.
        -- now rewrite <- (firstn_snoc _ _ _ Ha).
        -- rewrite <- (app_nil_r kB). apply subseq_app; [exact HsB |].
           apply subseq_nil_l.
      * destruct (IHup _ _ Hr) as (ps & kA & kB & -> & HA & HB & HsA & HsB & Hall).
        exists ps, kA, kB. repeat split; try assumption.
        -- rewrite <- (app_nil_r kA). apply subseq_app; [exact HsA |].
           apply subseq_nil_l.
        -- now rewrite <- (firstn_snoc _ _ _ Hb).
Qed.

Lemma lcs_subseq (pairs : list (nat * nat)) :
  longestCommonSubsequence equalFn index_pair sequenceA sequenceB = Ok pairs ->
  exists keptA keptB,
    map (fun p => nth_error sequenceA (fst p)) pairs = map Some keptA /\
    map (fun p => nth_error sequenceB (snd p)) pairs = map Some keptB /\
    subseq keptA sequenceA /\
    subseq keptB sequenceB /\
    Forall2 (fun a b => equalFn a b = Ok true) keptA keptB.
Proof.
  unfold longestCommonSubsequence.
  destruct (lcs_table equalFn sequenceA sequenceB) as [table|]; simpl;
    [|discriminate].
  intros Hr.
  destruct (backtrack_subseq _ _ _ _ _ Hr)
    as (ps & kA & kB & -> & HA & HB & HsA & HsB & Hall).
  rewrite firstn_all in HsA, HsB. rewrite app_nil_r.
  exists kA, kB. auto.
Qed.

(** *** The run returns a longest one *)

Local Notation "'L'" := (lcs_length equalFn sequenceA sequenceB).

Lemma lcs_length_column0 (i : nat) : L i 0 = 0.
Proof. now destruct i. Qed.

Lemma lcs_length_cell (i j : nat) :
  L (S i) (S j) =
  match nth_error sequenceA i, nth_error sequenceB j with
  | Some a, Some b =>
      match equalFn a b with
      | Ok true => S (L i j)
      | _ => Nat.max (L i (S j)) (L (S i) j)
      end
  | _, _ => 0
  end.
Proof. reflexivity. Qed.

(** A row of the table, cell by cell. *)
Lemma table_row_cells (a : A) :
  forall l above left cells,
    table_row equalFn a l above left = Ok cells ->
    length above = S (length l) ->
    length cells = length l /\
    forall j b,
      nth_error l j = Some b ->
      exists same,
        equalFn a b = Ok same /\
        nth j cells 0 =
        if same then nth j above 0 + 1
        else Nat.max (nth (S j) above 0) (nth j (left :: cells) 0).
Proof.
  induction l as [|b0 l IH]; intros above left cells Hrow Hlen.
  - injection Hrow as <-. split; [reflexivity |]. intros [|j] b; discriminate.
  - destruct above as [|diag [|up above]]; try discriminate.
    cbn [table_row] in Hrow.
    destruct (equalFn a b0) as [same0|] eqn:Hab; [|discriminate].
    cbn [rbind] in Hrow.
    destruct (table_row equalFn a l (up :: above) _) as [rest|] eqn:Hrest;
      [|discriminate].
    injection Hrow as <-.
    destruct (IH _ _ _ Hrest) as [Hlen' Hcells]; [simpl in *; lia |].
    split; [simpl; lia |].
    intros [|j] b Hb.
    + injection Hb as <-. exists same0. split; [exact Hab | reflexivity].
    + destruct (Hcells j b Hb) as (same & Hsame & Hcell).
      exists same. split; [exact Hsame | exact Hcell].
Qed.

(** The rows of the table hold the lengths of the recurrence. *)
Lemma table_rows_cells :
  forall l above rows i0,
    table_rows equalFn l sequenceB above = Ok rows ->
    (forall k, nth_error l k = nth_error sequenceA (i0 + k)) ->
    length above = S (length sequenceB) ->
    (forall j, j <= length sequenceB -> nth j above 0 = L i0 j) ->
    forall k j,
      k < length l -> j <= length sequenceB ->
      nth j (nth k rows []) 0 = L (S (i0 + k)) j.
Proof.
  induction l as [|a l IH]; intros above rows i0 Hrows Hsuffix Hlen Habove k j Hk Hj.
  - simpl in Hk. lia.
  - cbn [table_rows] in Hrows.
    destruct (table_row equalFn a sequenceB above 0) as [cells|] eqn:Hcells;
      [|discriminate].
    cbn [rbind] in Hrows.
    destruct (table_rows equalFn l sequenceB (0 :: cells)) as [rows'|] eqn:Hrows';
      [|discriminate].
    injection Hrows as <-.
    destruct (table_row_cells a _ _ _ _ Hcells Hlen) as [Hlen' Hcell].
    assert (Ha : nth_error sequenceA i0 = Some a).
    { rewrite <- (Nat.add_0_r i0). symmetry. apply (Hsuffix 0). }
    assert (Hcurrent : forall j, j <= length sequenceB ->
                                 nth j (0 :: cells) 0 = L (S i0) j).
    { intros c. induction c as [|c IHc]; intros Hcm; [reflexivity |].
      destruct (nth_error sequenceB c) as [b|] eqn:Hb;
        [|apply nth_error_None in Hb; lia].
      destruct (Hcell c b Hb) as (same & Hsame & Hval).
      rewrite lcs_length_cell, Ha, Hb, Hsame.
      change (nth (S c) (0 :: cells) 0) with (nth c cells 0).
      rewrite Hval, IHc, !Habove by lia.
      destruct same; [lia | reflexivity]. }
    destruct k as [|k].
    + rewrite Nat.add_0_r. now apply Hcurrent.
    + cbn [nth]. replace (i0 + S k) with (S i0 + k) by lia.
      apply (IH (0 :: cells) rows' (S i0) Hrows').
      * intros k'. replace (S i0 + k') with (i0 + S k') by lia.
        apply (Hsuffix (S k')).
      * simpl. lia.
      * exact Hcurrent.
      * simpl in Hk. lia.
      * exact Hj.
Qed.

Lemma lcs_table_cells (table : list (list nat)) :
  lcs_table equalFn sequenceA sequenceB = Ok table ->
  forall i j,
    i <= length sequenceA -> j <= length sequenceB ->
    cell table i j = L i j.
Proof.
  unfold lcs_table. intros Htable i j Hi Hj.
  destruct (table_rows equalFn sequenceA sequenceB _) as [rows|] eqn:Hrows;
    [|discriminate].
  injection Htable as <-. unfold cell.
  destruct i as [|i].
  - transitivity (nth j (repeat 0 (S (length sequenceB))) 0);
      [reflexivity | apply nth_repeat].
  - transitivity (nth j (nth i rows []) 0); [reflexivity |].
    apply (table_rows_cells _ _ _ 0 Hrows); try reflexivity; try lia.
    + now rewrite repeat_length.
    + intros j' _. apply nth_repeat.
Qed.

(** The walk collects as many pairs as the table says. *)
Lemma backtrack_length (T : Type) (collectFn : nat -> nat -> T)
      (table : list (list nat)) :
  (forall i j, i <= length sequenceA -> j <= length sequenceB ->
               cell table i j = L i j) ->
  forall i j,
    i <= length sequenceA -> j <= length sequenceB ->
    forall acc r,
      backtrack equalFn collectFn sequenceA sequenceB table i j acc = Ok r ->
      length r = L i j + length acc.
Proof.
  intros Htable i j. pattern i, j. apply walk_ind; clear i j.
  - intros j _ _ acc r [= <-]. reflexivity.
  - intros i _ _ acc r. rewrite backtrack_column0, lcs_length_column0.
    now intros [= <-].
  - intros i j IHdiag IHleft IHup Hi Hj acc r.
    rewrite backtrack_cell, lcs_length_cell.
    destruct (nth_error sequenceA i) as [a|]; [|discriminate].
    destruct (nth_error sequenceB j) as [b|]; [|discriminate].
    destruct (equalFn a b) as [[|]|]; cbn [rbind]; [| |discriminate].
    + intros Hr. apply IHdiag in Hr; [|lia|lia]. simpl in Hr. lia.
    + rewrite !Htable by lia.
      destruct (Nat.ltb_spec (L i (S j)) (L (S i) j)); intros Hr.
      * apply IHleft in Hr; lia.
      * apply IHup in Hr; lia.
Qed.

(** No common subsequence of the prefixes is longer than the recurrence
    says. *)
Lemma lcs_length_bound (i j : nat) :
  i <= length sequenceA -> j <= length sequenceB ->
  forall keptA keptB,
    subseq keptA (firstn i sequenceA) ->
    subseq keptB (firstn j sequenceB) ->
    Forall2 (fun a b => equalFn a b = Ok true) keptA keptB ->
    length keptA <= L i j.
Proof.
  pattern i, j. apply walk_ind; clear i j.
  - intros j _ _ kA kB HsA _ _. inversion HsA. simpl. lia.
  - intros i _ _ kA kB _ HsB Hall. inversion HsB; subst.
    inversion Hall. simpl. lia.
  - intros i j IHdiag IHleft IHup Hi Hj kA kB HsA HsB Hall.
    rewrite lcs_length_cell.
    destruct (nth_error_below sequenceA i Hi) as [a Ha].
    destruct (nth_error_below sequenceB j Hj) as [b Hb].
    rewrite Ha, Hb.
    rewrite (firstn_snoc _ _ _ Ha) in HsA. rewrite (firstn_snoc _ _ _ Hb) in HsB.
    destruct (subseq_snoc_inv _ _ _ HsA) as [HsA'|(kA' & -> & HsA')].
    { assert (length kA <= L i (S j)).
      { apply (IHup ltac:(lia) ltac:(lia) kA kB HsA'); [|exact Hall].
        now rewrite (firstn_snoc _ _ _ Hb). }
      destruct (equalFn a b) as [[|]|]; try lia.
      assert (length kA <= S (L i j)); [|lia].
      destruct (rev kA) as [|x rA] eqn:HrA.
      - apply (f_equal (@rev _)) in HrA. rewrite rev_involutive in HrA.
        subst kA. simpl. lia.
      - apply (f_equal (@rev _)) in HrA. rewrite rev_involutive in HrA.
        simpl in HrA. subst kA.
        apply Forall2_app_inv_l in Hall.
        destruct Hall as (kB1 & kB2 & Hall1 & Hall2 & ->).
        inversion Hall2 as [|? y ? ? _ Hnil]; subst. inversion Hnil; subst.
        rewrite length_app. simpl.
        assert (length (rev rA) <= L i j); [|lia].
        apply (IHdiag ltac:(lia) ltac:(lia) (rev rA) kB1); [| |exact Hall1].
        + now apply subseq_app_l in HsA'.
        + now apply subseq_init in HsB. }
    apply Forall2_app_inv_l in Hall.
    destruct Hall as (kB1 & kB2 & Hall1 & Hall2 & ->).
    inversion Hall2 as [|? y ? ? Hay Hnil]; subst. inversion Hnil; subst.
    assert (Hdiag : length kA' <= L i j).
    { apply (IHdiag ltac:(lia) ltac:(lia) kA' kB1); [exact HsA' | |exact Hall1].
      now apply subseq_init in HsB. }
    rewrite length_app. simpl.
    destruct (subseq_snoc_inv _ _ _ HsB) as [HsB'|(kB' & Heq & HsB')].
    + assert (length (kA' ++ [a]) <= L (S i) j).
      { apply (IHleft ltac:(lia) ltac:(lia) (kA' ++ [a]) (kB1 ++ [y]));
          [now rewrite (firstn_snoc _ _ _ Ha) | exact HsB' |].
        apply Forall2_app; [exact Hall1 | now constructor]. }
      rewrite length_app in H. simpl in H.
      destruct (equalFn a b) as [[|]|]; lia.
    + apply app_inj_tail in Heq. destruct Heq as [-> ->].
      rewrite Hay. lia.
Qed.

(** The run returns a longest common subsequence. *)
Lemma lcs_longest (pairs : list (nat * nat)) :
  longestCommonSubsequence equalFn index_pair sequenceA sequenceB = Ok pairs ->
  forall keptA keptB,
    subseq keptA sequenceA ->
    subseq keptB sequenceB ->
    Forall2 (fun a b => equalFn a b = Ok true) keptA keptB ->
    length keptA <= length pairs.
Proof.
  unfold longestCommonSubsequence.
  destruct (lcs_table equalFn sequenceA sequenceB) as [table|] eqn:Htable;
    [|discriminate].
  cbn [rbind]. intros Hr kA kB HsA HsB Hall.
  apply (backtrack_length _ _ _ (lcs_table_cells _ Htable)) in Hr; [|lia|lia].
  rewrite Hr, Nat.add_0_r.
  apply (lcs_length_bound (length sequenceA) (length sequenceB)
           (le_n _) (le_n _) kA kB); [| |exact Hall];
    now rewrite firstn_all.
Qed.

End LcsFacts.

(** ** Splicing the observed array *)

Section SpliceFacts.

Context {DataType Value Payload Column EvalType : Type}.

Local Notation "'State'" := (State DataType Value Payload Column EvalType).

Lemma splice_delete_remove_at (i : nat) (l : list Payload) :
  firstn i l ++ [] ++ skipn (i + 1) l = remove_at i l.
Proof.
  revert i. induction l as [|x l IH]; intros [|i]; simpl; try reflexivity.
  f_equal. apply IH.
Qed.

Lemma splice_insert_insert_at (i : nat) (x : Payload) (l : list Payload) :
  firstn i l ++ [x] ++ skipn (i + 0) l = insert_at i x l.
Proof.
  rewrite Nat.add_0_r. revert i.
  induction l as [|y l IH]; intros [|i]; simpl; try reflexivity.
  f_equal. apply IH.
Qed.

Lemma observed_splice (s : State) (start deleteCount : nat)
      (items : list Payload) :
  observed (snd (splice (observableResults_ (self s)) start deleteCount
                        items s))
  = firstn start (observed s) ++ items ++
    skipn (start + deleteCount) (observed s).
Proof. unfold observed. simpl. now rewrite Nat.eqb_refl. Qed.

Lemma observed_splice_delete (s : State) (i : nat) :
  observed (snd (splice (observableResults_ (self s)) i 1 [] s))
  = remove_at i (observed s).
Proof. rewrite observed_splice. apply splice_delete_remove_at. Qed.

Lemma observed_splice_insert (s : State) (i : nat) (x : Payload) :
  observed (snd (splice (observableResults_ (self s)) i 0 [x] s))
  = insert_at i x (observed s).
Proof. rewrite observed_splice. apply splice_insert_insert_at. Qed.

Lemma patched_refl (s : State) : patched s s.
Proof.
  repeat split. exists []. now rewrite app_nil_r.
Qed.

Lemma patched_trans (s1 s2 s3 : State) :
  patched s1 s2 -> patched s2 s3 -> patched s1 s3.
Proof.
  intros (Hself & Hframe & made & Hch & Hsingle & Hobs)
         (Hself' & Hframe' & made' & Hch' & Hsingle' & Hobs').
  split; [congruence | split].
  - intros r Hr. rewrite Hframe'; [now apply Hframe | congruence].
  - exists (made ++ made'). repeat split.
    + now rewrite Hch', Hch, app_assoc.
    + now apply Forall_app.
    + now rewrite Hobs', Hobs, fold_left_app.
Qed.

Lemma patched_splice_frame (s : State) (start deleteCount : nat)
      (items : list Payload) (r : ArrayRef) :
  r <> observableResults_ (self s) ->
  arrays (snd (splice (observableResults_ (self s)) start deleteCount
                      items s)) r
  = arrays s r.
Proof.
  intros Hr. simpl. now destruct (Nat.eqb_spec r (observableResults_ (self s))).
Qed.

(** [splice(i, 1)] removes one element, or none when there is none at
    [i]. *)
Lemma patched_splice_delete (s : State) (i : nat) :
  patched s (snd (splice (observableResults_ (self s)) i 1 [] s)).
Proof.
  split; [reflexivity | split; [intros r; apply patched_splice_frame |]].
  rewrite observed_splice. unfold observed. cbn [snd splice changes].
  set (l := arrays s (observableResults_ (self s))).
  destruct (Nat.le_gt_cases (length l) i) as [Hlen|Hlen].
  - exists []. rewrite (skipn_all2 l Hlen). repeat split; [constructor |].
    simpl. rewrite firstn_all2, skipn_all2 by lia. now rewrite app_nil_r.
  - destruct (skipn i l) as [|x rest] eqn:Hskip.
    { apply (f_equal (@length _)) in Hskip. rewrite length_skipn in Hskip.
      simpl in Hskip. lia. }
    eexists [_]. repeat split.
    + constructor; [|constructor]. left. exists x. now split.
    + simpl. unfold apply_change. simpl. now rewrite Nat.min_l by lia.
Qed.

(** [splice(i, 0, x)] adds one element. *)
Lemma patched_splice_insert (s : State) (i : nat) (x : Payload) :
  patched s (snd (splice (observableResults_ (self s)) i 0 [x] s)).
Proof.
  split; [reflexivity | split; [intros r; apply patched_splice_frame |]].
  rewrite observed_splice. unfold observed. cbn [snd splice changes firstn].
  set (l := arrays s (observableResults_ (self s))).
  eexists [_]. repeat split.
  - constructor; [|constructor]. right. exists x. now split.
  - simpl. unfold apply_change. simpl. rewrite !Nat.add_0_r.
    destruct (Nat.le_gt_cases i (length l)) as [H|H].
    + now rewrite Nat.min_l by exact H.
    + rewrite Nat.min_r by lia.
      rewrite !firstn_all2, !skipn_all2 by lia. reflexivity.
Qed.

End SpliceFacts.

(** ** The two passes of [applyDiff] *)

Section PassFacts.

Context {DataType Value Payload Column EvalType : Type}.
Variable getType : Column -> DataType.
Variable EQ : EvalType.
Variable deref : EntryRef -> RelationEntry Value Payload Column.

Local Notation "'State'" := (State DataType Value Payload Column EvalType).

Lemma deletion_body_run (keep : list (option EntryRef)) (i : nat)
      (entry : EntryRef) (c : nat) (s : State) :
  deletion_body keep i entry c s =
  if same_object (nth c keep None) entry
  then (Ok (c + 1), s)
  else (Ok c, snd (splice (observableResults_ (self s)) i 1 [] s)).
Proof. unfold deletion_body. now destruct (same_object _ _). Qed.

Lemma insertion_body_run (keep : list (option EntryRef)) (i : nat)
      (entry : EntryRef) (c : nat) (s : State) :
  insertion_body deref keep i entry c s =
  if same_object (nth c keep None) entry
  then (Ok (c + 1), s)
  else (Ok c,
        snd (splice (observableResults_ (self s)) i 0
                    [payload (row (deref entry))] s)).
Proof. unfold insertion_body. now destruct (same_object _ _). Qed.

(** The test of both loops, in terms of what the cursor points at. *)
Lemma same_object_true (keep : list (option EntryRef)) (c : nat)
      (entry : EntryRef) :
  same_object (nth c keep None) entry = true <->
  nth_error keep c = Some (Some entry).
Proof.
  unfold same_object. split.
  - destruct (nth c keep None) as [other|] eqn:Hnth; [|discriminate].
    intros Heq. apply Nat.eqb_eq in Heq. subst other.
    destruct (nth_error keep c) as [v|] eqn:Hv.
    + apply nth_error_nth with (d := None) in Hv. congruence.
    + apply nth_error_None in Hv.
      rewrite nth_overflow in Hnth by exact Hv. discriminate.
  - intros Hv. apply nth_error_nth with (d := None) in Hv. rewrite Hv.
    apply Nat.eqb_refl.
Qed.

(** A loop whose body always returns and patches the store does so
    too. *)
Lemma for_each_patched (X L : Type) (body : nat -> X -> L -> State -> result L * State) :
  (forall i x locals s,
      exists locals' s', body i x locals s = (Ok locals', s') /\ patched s s') ->
  forall array i locals s,
    exists locals' s',
      for_each body i array locals s = (Ok locals', s') /\ patched s s'.
Proof.
  intros Hbody. induction array as [|x rest IH]; intros i locals s; simpl.
  - exists locals, s. split; [reflexivity | apply patched_refl].
  - unfold bind.
    destruct (Hbody i x locals s) as (locals1 & s1 & -> & H1).
    destruct (IH (S i) locals1 s1) as (locals2 & s2 & -> & H2).
    exists locals2, s2. split; [reflexivity |].
    eapply patched_trans; eassumption.
Qed.

Lemma deletion_pass_patched (keep : list (option EntryRef))
      (array : list EntryRef) (i c : nat) (s : State) :
  exists c' s',
    for_each (deletion_body keep) i array c s = (Ok c', s') /\ patched s s'.
Proof.
  apply for_each_patched. clear. intros i entry c s.
  rewrite deletion_body_run. destruct (same_object _ _).
  - eexists _, _. split; [reflexivity | apply patched_refl].
  - eexists _, _. split; [reflexivity | apply patched_splice_delete].
Qed.

Lemma insertion_pass_patched (keep : list (option EntryRef))
      (array : list EntryRef) (i c : nat) (s : State) :
  exists c' s',
    for_each (insertion_body deref keep) i array c s = (Ok c', s') /\
    patched s s'.
Proof.
  apply for_each_patched. clear. intros i entry c s.
  rewrite insertion_body_run. destruct (same_object _ _).
  - eexists _, _. split; [reflexivity | apply patched_refl].
  - eexists _, _. split; [reflexivity | apply patched_splice_insert].
Qed.

Lemma remove_at_app (before after : list Payload) (x : Payload) :
  remove_at (length before) (before ++ x :: after) = before ++ after.
Proof. induction before as [|y before IH]; simpl; congruence. Qed.

Lemma insert_at_app (before after : list Payload) (x : Payload) :
  insert_at (length before) x (before ++ after) = before ++ x :: after.
Proof. induction before as [|y before IH]; simpl; [now destruct after | congruence]. Qed.

(** A removal aimed past the end of the sequence removes nothing. *)
Lemma remove_at_past_end (i : nat) (l : list Payload) :
  length l <= i -> remove_at i l = l.
Proof.
  revert i. induction l as [|x l IH]; intros [|i] Hlen; simpl in *;
    try reflexivity; try lia.
  f_equal. apply IH. lia.
Qed.

(** One turn of the first loop on an entry that is the instance under the
    cursor, or whose index holds an element of the observed array, is a step
    of the deletion pass. *)
Lemma deletion_body_step (oldEntries : list EntryRef)
      (keep : list (option EntryRef)) (i c : nat) (entry : EntryRef)
      (s : State) :
  nth_error oldEntries i = Some entry ->
  nth_error keep c = Some (Some entry) \/ i < length (observed s) ->
  exists c' s',
    deletion_body keep i entry c s = (Ok c', s') /\
    deletion_step oldEntries keep (i, c, observed s) (S i, c', observed s').
Proof.
  intros Hentry Hcase. rewrite deletion_body_run.
  destruct (same_object (nth c keep None) entry) eqn:Hsame.
  - eexists _, _. split; [reflexivity |]. rewrite Nat.add_1_r.
    apply deletion_retain with (entry := entry);
      [exact Hentry | now apply same_object_true].
  - eexists _, _. split; [reflexivity |].
    destruct Hcase as [Hkeep | Hlt].
    { apply same_object_true in Hkeep. congruence. }
    destruct (nth_error (observed s) i) as [x|] eqn:Hx;
      [|apply nth_error_None in Hx; lia].
    destruct (nth_error_split _ _ Hx) as (before & after & Hsplit & Hlen).
    rewrite observed_splice_delete, Hsplit. subst i. rewrite remove_at_app.
    apply deletion_remove with (entry := entry); [exact Hentry | | reflexivity].
    intros Hkeep. apply same_object_true in Hkeep. congruence.
Qed.

(** A turn of the first loop on an entry that is not the instance under the
    cursor and whose index is past the end of the observed array leaves the
    array as it is, and is no step of the deletion pass. *)
Lemma deletion_body_past_end (oldEntries : list EntryRef)
      (keep : list (option EntryRef)) (i c : nat) (entry : EntryRef)
      (s : State) :
  nth_error oldEntries i = Some entry ->
  nth_error keep c <> Some (Some entry) ->
  length (observed s) <= i ->
  (exists s', deletion_body keep i entry c s = (Ok c, s') /\
              observed s' = observed s) /\
  forall next, ~ deletion_step oldEntries keep (i, c, observed s) next.
Proof.
  intros Hentry Hkeep Hlen. split.
  - rewrite deletion_body_run.
    destruct (same_object (nth c keep None) entry) eqn:Hsame.
    { apply same_object_true in Hsame. contradiction. }
    eexists. split; [reflexivity |].
    rewrite observed_splice_delete. now apply remove_at_past_end.
  - intros next Hstep.
    inversion Hstep as [i' c' sequence entry' Hold Hnth
                       |i' c' before x after entry' Hold Hnth Hbefore];
      subst.
    + congruence.
    + match goal with H : _ = observed s |- _ => rewrite <- H in Hlen end.
      rewrite length_app in Hlen. simpl in Hlen. lia.
Qed.

(** Every step of the deletion pass moves to the next index. *)
Lemma deletion_steps_index (oldEntries : list EntryRef)
      (keep : list (option EntryRef)) (x y : pass_state Payload) :
  clos_refl_trans_1n _ (deletion_step oldEntries keep) x y ->
  fst (fst x) <= fst (fst y) /\ (fst (fst x) = fst (fst y) -> x = y).
Proof.
  induction 1 as [x | x y z Hstep Hsteps [IHle IHeq]].
  - split; [lia | reflexivity].
  - inversion Hstep; subst; simpl in *; split; lia.
Qed.

(** The first loop refines the steps of the deletion pass: where the steps
    lead from the index of the loop to the end of the old entries, the loop
    returns with the cursor and the sequence they lead to. *)
Lemma deletion_pass_steps (oldEntries : list EntryRef)
      (keep : list (option EntryRef)) :
  forall rest i c (s : State) c' middle,
    (forall k, nth_error rest k = nth_error oldEntries (i + k)) ->
    clos_refl_trans_1n _ (deletion_step oldEntries keep)
                       (i, c, observed s) (i + length rest, c', middle) ->
    exists s',
      for_each (deletion_body keep) i rest c s = (Ok c', s') /\
      observed s' = middle.
Proof.
  induction rest as [|entry rest IH]; intros i c s c' middle Hrest Hsteps.
  - simpl in Hsteps. rewrite Nat.add_0_r in Hsteps.
    apply deletion_steps_index in Hsteps as [_ Heq].
    specialize (Heq eq_refl). injection Heq as <- <-.
    exists s. split; reflexivity.
  - assert (Hentry : nth_error oldEntries i = Some entry).
    { rewrite <- (Nat.add_0_r i). symmetry. apply (Hrest 0). }
    assert (Hrest' : forall k, nth_error rest k = nth_error oldEntries (S i + k)).
    { intros k. replace (S i + k) with (i + S k) by lia. apply (Hrest (S k)). }
    cbn [length] in Hsteps.
    replace (i + S (length rest)) with (S i + length rest) in Hsteps by lia.
    inversion Hsteps as [Hend | y z Hstep Htail]; [lia |]. subst z.
    cbn [for_each]. unfold bind. rewrite deletion_body_run.
    inversion Hstep as [i' c0 sequence entry' Hold Hnth
                       |i' c0 before x after entry' Hold Hnth Hbefore];
      subst.
    + assert (entry' = entry) by congruence. subst entry'.
      apply same_object_true in Hnth. rewrite Hnth. rewrite Nat.add_1_r.
      apply IH; assumption.
    + assert (entry' = entry) by congruence. subst entry'.
      destruct (same_object (nth c keep None) entry) eqn:Hsame.
      { apply same_object_true in Hsame. contradiction. }
      apply IH; [exact Hrest' |].
      rewrite observed_splice_delete.
      match goal with H : _ = observed s |- _ => rewrite <- H end.
      now rewrite remove_at_app.
Qed.

(** One turn of the second loop on an entry that is the instance under the
    cursor, or whose index is a position of the observed array or its end,
    is a step of the insertion pass. *)
Lemma insertion_body_step (newEntries : list EntryRef)
      (keep : list (option EntryRef)) (i c : nat) (entry : EntryRef)
      (s : State) :
  nth_error newEntries i = Some entry ->
  nth_error keep c = Some (Some entry) \/ i <= length (observed s) ->
  exists c' s',
    insertion_body deref keep i entry c s = (Ok c', s') /\
    insertion_step deref newEntries keep
                   (i, c, observed s) (S i, c', observed s').
Proof.
  intros Hentry Hcase. rewrite insertion_body_run.
  destruct (same_object (nth c keep None) entry) eqn:Hsame.
  - eexists _, _. split; [reflexivity |]. rewrite Nat.add_1_r.
    apply insertion_present with (entry := entry);
      [exact Hentry | now apply same_object_true].
  - eexists _, _. split; [reflexivity |].
    destruct Hcase as [Hkeep | Hle].
    { apply same_object_true in Hkeep. congruence. }
    rewrite observed_splice_insert.
    assert (Hlen : length (firstn i (observed s)) = i)
      by (rewrite length_firstn; lia).
    rewrite <- (firstn_skipn i (observed s)).
    generalize dependent (firstn i (observed s)). intros before Hlen.
    subst i. rewrite insert_at_app.
    apply insertion_insert; [exact Hentry | | reflexivity].
    intros Hkeep. apply same_object_true in Hkeep. congruence.
Qed.

(** Every step of the insertion pass moves to the next index. *)
Lemma insertion_steps_index (newEntries : list EntryRef)
      (keep : list (option EntryRef)) (x y : pass_state Payload) :
  clos_refl_trans_1n _ (insertion_step deref newEntries keep) x y ->
  fst (fst x) <= fst (fst y) /\ (fst (fst x) = fst (fst y) -> x = y).
Proof.
  induction 1 as [x | x y z Hstep Hsteps [IHle IHeq]].
  - split; [lia | reflexivity].
  - inversion Hstep; subst; simpl in *; split; lia.
Qed.

(** The second loop refines the steps of the insertion pass: where the steps
    lead from the index of the loop to the end of the new entries, the loop
    returns with the cursor and the sequence they lead to. *)
Lemma insertion_pass_steps (newEntries : list EntryRef)
      (keep : list (option EntryRef)) :
  forall rest i c (s : State) c' final,
    (forall k, nth_error rest k = nth_error newEntries (i + k)) ->
    clos_refl_trans_1n _ (insertion_step deref newEntries keep)
                       (i, c, observed s) (i + length rest, c', final) ->
    exists s',
      for_each (insertion_body deref keep) i rest c s = (Ok c', s') /\
      observed s' = final.
Proof.
  induction rest as [|entry rest IH]; intros i c s c' final Hrest Hsteps.
  - simpl in Hsteps. rewrite Nat.add_0_r in Hsteps.
    apply insertion_steps_index in Hsteps as [_ Heq].
    specialize (Heq eq_refl). injection Heq as <- <-.
    exists s. split; reflexivity.
  - assert (Hentry : nth_error newEntries i = Some entry).
    { rewrite <- (Nat.add_0_r i). symmetry. apply (Hrest 0). }
    assert (Hrest' : forall k, nth_error rest k = nth_error newEntries (S i + k)).
    { intros k. replace (S i + k) with (i + S k) by lia. apply (Hrest (S k)). }
    cbn [length] in Hsteps.
    replace (i + S (length rest)) with (S i + length rest) in Hsteps by lia.
    inversion Hsteps as [Hend | y z Hstep Htail]; [lia |]. subst z.
    cbn [for_each]. unfold bind. rewrite insertion_body_run.
    inversion Hstep as [i' c0 sequence entry' Hnew Hnth
                       |i' c0 before after entry' Hnew Hnth Hbefore];
      subst.
    + assert (entry' = entry) by congruence. subst entry'.
      apply same_object_true in Hnth. rewrite Hnth. rewrite Nat.add_1_r.
      apply IH; assumption.
    + assert (entry' = entry) by congruence. subst entry'.
      destruct (same_object (nth c keep None) entry) eqn:Hsame.
      { apply same_object_true in Hsame. contradiction. }
      apply IH; [exact Hrest' |].
      rewrite observed_splice_insert.
      match goal with H : _ = observed s |- _ => rewrite <- H end.
      now rewrite insert_at_app.
Qed.

Lemma nth_map_seq {X : Type} (f : nat -> X) (d : X) (n k : nat) :
  k < n -> nth k (map f (seq 0 n)) d = f k.
Proof.
  intros Hk. rewrite nth_indep with (d' := f 0) by now rewrite length_map, length_seq.
  rewrite map_nth, seq_nth by exact Hk. reflexivity.
Qed.

(** When the cursor finds every walked entry, the first loop leaves the
    store alone. *)
Lemma deletion_pass_all_kept (keep : list (option EntryRef)) :
  forall rest i c (s : State),
    (forall k entry, nth_error rest k = Some entry ->
                     nth (c + k) keep None = Some entry) ->
    for_each (deletion_body keep) i rest c s = (Ok (c + length rest), s).
Proof.
  induction rest as [|entry rest IH]; intros i c s Hkeep; simpl.
  - now rewrite Nat.add_0_r.
  - unfold bind. rewrite deletion_body_run.
    pose proof (Hkeep 0 entry eq_refl) as H0. rewrite Nat.add_0_r in H0.
    rewrite H0. simpl. rewrite Nat.eqb_refl.
    rewrite IH; [f_equal; f_equal; lia |].
    intros k e Hk. replace (c + 1 + k) with (c + S k) by lia.
    now apply Hkeep.
Qed.

(** And so does the second loop. *)
Lemma insertion_pass_all_kept (keep : list (option EntryRef)) :
  forall rest i c (s : State),
    (forall k entry, nth_error rest k = Some entry ->
                     nth (c + k) keep None = Some entry) ->
    for_each (insertion_body deref keep) i rest c s
    = (Ok (c + length rest), s).
Proof.
  induction rest as [|entry rest IH]; intros i c s Hkeep; simpl.
  - now rewrite Nat.add_0_r.
  - unfold bind. rewrite insertion_body_run.
    pose proof (Hkeep 0 entry eq_refl) as H0. rewrite Nat.add_0_r in H0.
    rewrite H0. simpl. rewrite Nat.eqb_refl.
    rewrite IH; [f_equal; f_equal; lia |].
    intros k e Hk. replace (c + 1 + k) with (c + S k) by lia.
    now apply Hkeep.
Qed.

(** With nothing kept, the second loop adds the payload of every walked
    entry, each at the end of what is there. *)
Lemma insertion_pass_all_new :
  forall rest before c (s : State),
    observed s = payloads deref before ->
    exists s',
      for_each (insertion_body deref []) (length before) rest c s = (Ok c, s') /\
      self s' = self s /\
      observed s' = payloads deref (before ++ rest) /\
      changes s' = changes s ++ additions_from deref (length before) rest.
Proof.
  induction rest as [|entry rest IH]; intros before c s Hobs; simpl.
  - exists s. now rewrite !app_nil_r.
  - unfold bind. rewrite insertion_body_run.
    replace (nth c [] None) with (@None EntryRef) by now destruct c.
    cbn [same_object].
    set (s1 := snd (splice (observableResults_ (self s)) (length before) 0
                           [payload (row (deref entry))] s)).
    assert (Hobs1 : observed s1 = payloads deref (before ++ [entry])).
    { unfold s1. rewrite observed_splice, Hobs, Nat.add_0_r.
      unfold payloads. rewrite map_app.
      rewrite firstn_all2, skipn_all2 by now rewrite length_map.
      reflexivity. }
    destruct (IH (before ++ [entry]) c s1 Hobs1) as (s' & Hrun & Hself & Hobs' & Hch).
    rewrite length_app, Nat.add_1_r in Hrun, Hch.
    exists s'. split; [exact Hrun | split; [exact Hself | split]].
    + now rewrite Hobs', <- app_assoc.
    + rewrite Hch. unfold s1. cbn [snd splice changes firstn].
      rewrite <- app_assoc. f_equal. simpl. f_equal. unfold addition. f_equal.
      fold (observed s). rewrite Hobs. unfold payloads.
      rewrite length_map. apply Nat.min_id.
Qed.

(** The kept entries of a walk along the diagonal are the walked entries
    themselves. *)
Lemma diagonal_kept (l : list EntryRef) (n : nat) :
  length l = n ->
  forall k entry,
    nth_error l k = Some entry ->
    nth (0 + k) (map (fun k => nth_error l k) (seq 0 n)) None = Some entry.
Proof.
  intros Hn k entry Hk. simpl. rewrite nth_map_seq; [exact Hk |].
  rewrite <- Hn. apply nth_error_Some. congruence.
Qed.

(** *** The passes on results without repeated entries *)

Lemma removals_app (l1 l2 : list (Change Payload)) :
  removals (l1 ++ l2) = removals l1 + removals l2.
Proof. unfold removals. now rewrite map_app, list_sum_app. Qed.

Lemma insertions_app (l1 l2 : list (Change Payload)) :
  insertions (l1 ++ l2) = insertions l1 + insertions l2.
Proof. unfold insertions. now rewrite map_app, list_sum_app. Qed.

Lemma changes_splice_delete (s : State) (i : nat) :
  exists made,
    changes (snd (splice (observableResults_ (self s)) i 1 [] s))
    = changes s ++ made /\
    removals made <= 1 /\ insertions made = 0.
Proof.
  cbn [snd splice changes].
  destruct (skipn i (arrays s (observableResults_ (self s)))) as [|x rest].
  - exists []. simpl. auto.
  - eexists [_]. split; [reflexivity |]. unfold removals, insertions. simpl. auto.
Qed.

Lemma changes_splice_insert (s : State) (i : nat) (x : Payload) :
  exists made,
    changes (snd (splice (observableResults_ (self s)) i 0 [x] s))
    = changes s ++ made /\
    removals made = 0 /\ insertions made = 1.
Proof.
  cbn [snd splice changes firstn]. eexists [_]. split; [reflexivity |].
  unfold removals, insertions. simpl. auto.
Qed.

(** What the test of the loops decides, for entries without repetition and
    a cursor that points into a subsequence of what is left to walk. *)
Lemma cursor_step (keep : list (option EntryRef)) (c : nat)
      (kept : list EntryRef) (entry : EntryRef) (rest : list EntryRef) :
  NoDup (entry :: rest) ->
  subseq kept (entry :: rest) ->
  (forall k, nth (c + k) keep None = nth_error kept k) ->
  (same_object (nth c keep None) entry = true /\
   exists kept',
     kept = entry :: kept' /\ subseq kept' rest /\
     forall k, nth (c + 1 + k) keep None = nth_error kept' k) \/
  (same_object (nth c keep None) entry = false /\
   subseq kept rest /\
   match kept with k :: _ => (k =? entry) = false | [] => True end).
Proof.
  intros Hnd Hsub Hkeep.
  pose proof (Hkeep 0) as H0. rewrite Nat.add_0_r in H0. rewrite H0.
  destruct kept as [|x kept']; simpl.
  - right. split; [reflexivity | split; [apply subseq_nil_l | exact I]].
  - destruct (Nat.eqb_spec x entry) as [->|Hne].
    + left. split; [reflexivity |]. exists kept'.
      split; [reflexivity | split; [now apply subseq_head_taken in Hsub |]].
      intros k. replace (c + 1 + k) with (c + S k) by lia. apply (Hkeep (S k)).
    + right. split; [reflexivity | split; [|reflexivity]].
      now apply subseq_head_skipped in Hsub.
Qed.

(** The removals of the first loop: at most one for each walked entry that
    is not kept. *)
Lemma deletion_pass_counts (keep : list (option EntryRef)) :
  forall rest kept i c (s : State),
    NoDup rest -> subseq kept rest ->
    (forall k, nth (c + k) keep None = nth_error kept k) ->
    exists c' s' made,
      for_each (deletion_body keep) i rest c s = (Ok c', s') /\
      changes s' = changes s ++ made /\
      removals made <= length rest - length kept /\
      insertions made = 0.
Proof.
  induction rest as [|entry rest IH]; intros kept i c s Hnd Hsub Hkeep;
    cbn [for_each].
  - exists c, s, []. rewrite app_nil_r. simpl. auto.
  - unfold bind. rewrite deletion_body_run.
    destruct (cursor_step keep c kept entry rest Hnd Hsub Hkeep)
      as [(-> & kept' & -> & Hsub' & Hkeep')|(-> & Hsub' & _)].
    + destruct (IH kept' (S i) (c + 1) s) as (c' & s' & made & -> & Hch & Hrem & Hins);
        [now inversion Hnd | exact Hsub' | exact Hkeep' |].
      exists c', s', made. cbn [length]. repeat split; try assumption; lia.
    + set (s1 := snd (splice (observableResults_ (self s)) i 1 [] s)).
      destruct (changes_splice_delete s i) as (made1 & Hch1 & Hrem1 & Hins1).
      fold s1 in Hch1.
      destruct (IH kept (S i) c s1) as (c' & s' & made & -> & Hch & Hrem & Hins);
        [now inversion Hnd | exact Hsub' | exact Hkeep |].
      exists c', s', (made1 ++ made).
      rewrite Hch, Hch1, <- app_assoc, removals_app, insertions_app.
      apply subseq_length in Hsub'. cbn [length]. repeat split; lia.
Qed.

(** The first loop when at most one walked entry is not kept: the payloads
    of the kept entries are what stays. *)
Lemma deletion_pass_one_removal (keep : list (option EntryRef)) :
  forall rest kept before c (s : State),
    NoDup rest -> subseq kept rest ->
    (forall k, nth (c + k) keep None = nth_error kept k) ->
    length rest <= S (length kept) ->
    observed s = payloads deref (before ++ rest) ->
    exists c' s',
      for_each (deletion_body keep) (length before) rest c s = (Ok c', s') /\
      observed s' = payloads deref (before ++ kept).
Proof.
  induction rest as [|entry rest IH]; intros kept before c s Hnd Hsub Hkeep Hlen Hobs;
    simpl.
  - inversion Hsub; subst. exists c, s. auto.
  - unfold bind. rewrite deletion_body_run.
    destruct (cursor_step keep c kept entry rest Hnd Hsub Hkeep)
      as [(-> & kept' & -> & Hsub' & Hkeep')|(-> & Hsub' & _)].
    + destruct (IH kept' (before ++ [entry]) (c + 1) s) as (c' & s' & Hrun & Hobs');
        [now inversion Hnd | exact Hsub' | exact Hkeep' | simpl in Hlen; lia
        | now rewrite <- app_assoc |].
      rewrite length_app, Nat.add_1_r in Hrun.
      exists c', s'. split; [exact Hrun |]. now rewrite Hobs', <- app_assoc.
    + assert (kept = rest) as ->.
      { apply subseq_same_length; [exact Hsub' | simpl in Hlen; lia]. }
      set (s1 := snd (splice (observableResults_ (self s)) (length before) 1 [] s)).
      rewrite deletion_pass_all_kept.
      * eexists _, s1. split; [reflexivity |].
        unfold s1. rewrite observed_splice_delete, Hobs.
        unfold payloads. rewrite !map_app. simpl.
        rewrite <- (length_map (fun entry => payload (row (deref entry))) before).
        apply remove_at_app.
      * intros k e Hk. now rewrite Hkeep.
Qed.

(** The additions of the second loop: one for each walked entry that is not
    kept. *)
Lemma insertion_pass_counts (keep : list (option EntryRef)) :
  forall rest kept i c (s : State),
    NoDup rest -> subseq kept rest ->
    (forall k, nth (c + k) keep None = nth_error kept k) ->
    exists c' s' made,
      for_each (insertion_body deref keep) i rest c s = (Ok c', s') /\
      changes s' = changes s ++ made /\
      removals made = 0 /\
      insertions made = length rest - length kept.
Proof.
  induction rest as [|entry rest IH]; intros kept i c s Hnd Hsub Hkeep;
    cbn [for_each].
  - inversion Hsub; subst. exists c, s, []. rewrite app_nil_r. simpl. auto.
  - unfold bind. rewrite insertion_body_run.
    destruct (cursor_step keep c kept entry rest Hnd Hsub Hkeep)
      as [(-> & kept' & -> & Hsub' & Hkeep')|(-> & Hsub' & _)].
    + destruct (IH kept' (S i) (c + 1) s) as (c' & s' & made & -> & Hch & Hrem & Hins);
        [now inversion Hnd | exact Hsub' | exact Hkeep' |].
      exists c', s', made. cbn [length]. repeat split; try assumption; lia.
    + set (x := payload (row (deref entry))).
      set (s1 := snd (splice (observableResults_ (self s)) i 0 [x] s)).
      destruct (changes_splice_insert s i x) as (made1 & Hch1 & Hrem1 & Hins1).
      fold s1 in Hch1.
      destruct (IH kept (S i) c s1) as (c' & s' & made & -> & Hch & Hrem & Hins);
        [now inversion Hnd | exact Hsub' | exact Hkeep |].
      exists c', s', (made1 ++ made).
      rewrite Hch, Hch1, <- app_assoc, removals_app, insertions_app.
      apply subseq_length in Hsub'. cbn [length]. repeat split; lia.
Qed.

(** The second loop: the payload of every walked entry that is not kept is
    added where the entry is. *)
Lemma insertion_pass_weave (keep : list (option EntryRef)) :
  forall rest kept before present c (s : State),
    NoDup rest -> subseq kept rest ->
    (forall k, nth (c + k) keep None = nth_error kept k) ->
    length present = length kept ->
    observed s = before ++ present ->
    exists c' s',
      for_each (insertion_body deref keep) (length before) rest c s
      = (Ok c', s') /\
      observed s' = before ++ weave deref rest kept present.
Proof.
  induction rest as [|entry rest IH];
    intros kept before present c s Hnd Hsub Hkeep Hlen Hobs; cbn [for_each].
  - inversion Hsub; subst. destruct present; [|discriminate].
    exists c, s. rewrite !app_nil_r in *. simpl. auto.
  - unfold bind. rewrite insertion_body_run.
    destruct (cursor_step keep c kept entry rest Hnd Hsub Hkeep)
      as [(-> & kept' & -> & Hsub' & Hkeep')|(-> & Hsub' & Hhead)].
    + destruct present as [|p present]; [discriminate |].
      cbn [weave]. rewrite Nat.eqb_refl.
      destruct (IH kept' (before ++ [p]) present (c + 1) s)
        as (c' & s' & Hrun & Hobs');
        [now inversion Hnd | exact Hsub' | exact Hkeep' | simpl in Hlen; lia
        | now rewrite <- app_assoc |].
      rewrite length_app, Nat.add_1_r in Hrun.
      exists c', s'. now rewrite Hrun, Hobs', <- app_assoc.
    + set (x := payload (row (deref entry))).
      set (s1 := snd (splice (observableResults_ (self s)) (length before) 0 [x] s)).
      assert (Hweave : weave deref (entry :: rest) kept present
                       = x :: weave deref rest kept present).
      { simpl. destruct kept as [|k kept']; [reflexivity |].
        destruct present; [reflexivity |]. now rewrite Hhead. }
      rewrite Hweave.
      destruct (IH kept (before ++ [x]) present c s1)
        as (c' & s' & Hrun & Hobs');
        [now inversion Hnd | exact Hsub' | exact Hkeep | exact Hlen | |].
      { unfold s1. rewrite observed_splice_insert, Hobs, <- app_assoc.
        apply insert_at_app. }
      rewrite length_app, Nat.add_1_r in Hrun.
      exists c', s'. now rewrite Hrun, Hobs', <- app_assoc.
Qed.

Lemma weave_same (rest kept : list EntryRef) :
  weave deref rest kept (payloads deref kept) = payloads deref rest.
Proof.
  revert kept. induction rest as [|entry rest IH]; intros kept; simpl;
    [reflexivity |].
  destruct kept as [|k kept']; simpl.
  - f_equal. apply (IH []).
  - destruct (Nat.eqb_spec k entry) as [->|Hne]; f_equal.
    + apply IH.
    + apply (IH (k :: kept')).
Qed.

End PassFacts.

(** ** [applyDiff] *)

Section ApplyDiffFacts.

Context {DataType Value Payload Column EvalType : Type}.
Variable getType : Column -> DataType.
Variable EQ : EvalType.
Variable deref : EntryRef -> RelationEntry Value Payload Column.

Local Notation "'State'" := (State DataType Value Payload Column EvalType).
Local Notation "'run_applyDiff'" := (applyDiff getType EQ deref).
Local Notation "'keepOld'" := (keepOld_of getType EQ deref).
Local Notation "'keepNew'" := (keepNew_of getType EQ deref).

(** One call of [applyDiff], laid out: the first run of the longest common
    subsequence, the first loop, the second run, the second loop. *)
Lemma applyDiff_run (oldResults : option Relation) (newResults : Relation)
      (s : State) :
  run_applyDiff oldResults newResults s =
  match keepOld (self s) (oldEntries_of oldResults) (entries newResults) with
  | Throw => (Throw, s)
  | Ok kept =>
      match for_each (deletion_body kept) 0 (oldEntries_of oldResults) 0 s with
      | (Throw, s1) => (Throw, s1)
      | (Ok _, s1) =>
          match keepNew (self s) (oldEntries_of oldResults)
                        (entries newResults) with
          | Throw => (Throw, s1)
          | Ok kept' =>
              match for_each (insertion_body deref kept') 0
                             (entries newResults) 0 s1 with
              | (Throw, s2) => (Throw, s2)
              | (Ok _, s2) => (Ok tt, s2)
              end
          end
      end
  end.
Proof.
  unfold applyDiff, keepOld_of, keepNew_of, oldEntries_of, bind, lift,
    get_this, ret.
  destruct (longestCommonSubsequence _ _ _ _) as [kept|]; [|reflexivity].
  destruct (for_each _ _ _ _ _) as [[c1|] s1]; [|reflexivity].
  destruct (longestCommonSubsequence _ _ _ _) as [kept'|]; [|reflexivity].
  destruct (for_each _ _ _ _ _) as [[c2|] s2]; reflexivity.
Qed.

(** C9.  Whatever the results are, and whether the call returns or throws,
    a call of applyDiff leaves the calculator object as it was (registry,
    query, resolved columns and the reference to the observed array) and
    every array but the observed one; what it does to the observed array
    is a sequence of recorded changes, each removing one element or adding
    one element at a position, and the contents after the call are the
    contents before it with these changes applied in order.  The result
    sets and their entries are values that the call only reads. *)
Theorem applyDiff_frame (oldResults : option Relation)
        (newResults : Relation) (s : State) :
  let s' := snd (run_applyDiff oldResults newResults s) in
  self s' = self s /\
  (forall r, r <> observableResults_ (self s) -> arrays s' r = arrays s r) /\
  exists made,
    changes s' = changes s ++ made /\
    Forall (@single_element Payload) made /\
    observed s' = fold_left (@apply_change Payload) made (observed s).
Proof.
  change (patched s (snd (run_applyDiff oldResults newResults s))).
  rewrite applyDiff_run.
  destruct (keepOld _ _ _) as [kept|]; [|apply patched_refl].
  destruct (deletion_pass_patched kept (oldEntries_of oldResults) 0 0 s)
    as (c1 & s1 & -> & H1).
  destruct (keepNew _ _ _) as [kept'|]; [|exact H1].
  destruct (insertion_pass_patched deref kept' (entries newResults) 0 0 s1)
    as (c2 & s2 & -> & H2).
  simpl. eapply patched_trans; eassumption.
Qed.

(** With keepOld and keepNew the results of the two runs of the longest
    common subsequence: where the steps of the deletion pass lead from the
    observed sequence through all the old entries, every removal finding an
    element at its index, and the steps of the insertion pass lead on
    through all the new entries, a call of [applyDiff] returns and leaves
    the observed sequence that the two passes lead to. *)
Lemma two_pass_patch_in_range (oldResults : option Relation)
      (newResults : Relation) (s : State)
      (kept kept' : list (option EntryRef)) (c1 c2 : nat)
      (middle final : list Payload) :
  keepOld (self s) (oldEntries_of oldResults) (entries newResults) = Ok kept ->
  keepNew (self s) (oldEntries_of oldResults) (entries newResults) = Ok kept' ->
  clos_refl_trans_1n _
    (deletion_step (oldEntries_of oldResults) kept)
    (0, 0, observed s)
    (length (oldEntries_of oldResults), c1, middle) ->
  clos_refl_trans_1n _
    (insertion_step deref (entries newResults) kept')
    (0, 0, middle)
    (length (entries newResults), c2, final) ->
  fst (run_applyDiff oldResults newResults s) = Ok tt /\
  observed (snd (run_applyDiff oldResults newResults s)) = final.
Proof.
  intros Hold Hnew Hdel Hins. rewrite applyDiff_run, Hold, Hnew.
  destruct (deletion_pass_steps (oldEntries_of oldResults) kept
              (oldEntries_of oldResults) 0 0 s c1 middle (fun k => eq_refl)
              Hdel)
    as (s1 & -> & Hmiddle).
  rewrite <- Hmiddle in Hins.
  destruct (insertion_pass_steps deref (entries newResults) kept'
              (entries newResults) 0 0 s1 c2 final (fun k => eq_refl) Hins)
    as (s2 & -> & Hfinal).
  simpl. auto.
Qed.

(** When the registry has an evaluator for the type of every resolved
    column, [applyDiff] returns. *)
Lemma applyDiff_returns (oldResults : option Relation) (newResults : Relation)
      (s : State) :
  (forall column, In column (columns_ (self s)) ->
     getEvaluator (evalRegistry_ (self s)) (getType column) EQ <> None) ->
  fst (run_applyDiff oldResults newResults s) = Ok tt.
Proof.
  intros Hres. rewrite applyDiff_run. unfold keepOld_of, keepNew_of.
  destruct (lcs_returns (comparator_ getType EQ deref (self s))
              (oldEntries_of oldResults) (entries newResults) _
              (fun indexLeft _ : nat =>
                 nth_error (oldEntries_of oldResults) indexLeft))
    as [kept ->].
  { intros a b _ _. now apply comparator_returns. }
  destruct (deletion_pass_patched kept (oldEntries_of oldResults) 0 0 s)
    as (c1 & s1 & -> & _).
  destruct (lcs_returns (comparator_ getType EQ deref (self s))
              (oldEntries_of oldResults) (entries newResults) _
              (fun _ indexRight : nat =>
                 nth_error (entries newResults) indexRight))
    as [kept' ->].
  { intros a b _ _. now apply comparator_returns. }
  destruct (insertion_pass_patched deref kept' (entries newResults) 0 0 s1)
    as (c2 & s2 & -> & _).
  reflexivity.
Qed.

(** When the comparator rejects no pair of entries at the same index of two
    lists of equal length, a call changes nothing. *)
Lemma applyDiff_diagonal (oldResults : option Relation)
      (newResults : Relation) (s : State) :
  length (oldEntries_of oldResults) = length (entries newResults) ->
  (forall k a b,
      nth_error (oldEntries_of oldResults) k = Some a ->
      nth_error (entries newResults) k = Some b ->
      comparator_ getType EQ deref (self s) a b <> Ok false) ->
  snd (run_applyDiff oldResults newResults s) = s.
Proof.
  intros Hlen Hdiag. rewrite applyDiff_run. unfold keepOld_of, keepNew_of.
  destruct (lcs_diagonal (comparator_ getType EQ deref (self s))
              (oldEntries_of oldResults) (entries newResults) _
              (fun indexLeft _ : nat =>
                 nth_error (oldEntries_of oldResults) indexLeft) Hlen Hdiag)
    as [->| ->]; [reflexivity |].
  rewrite deletion_pass_all_kept by now apply diagonal_kept.
  destruct (lcs_diagonal (comparator_ getType EQ deref (self s))
              (oldEntries_of oldResults) (entries newResults) _
              (fun _ indexRight : nat =>
                 nth_error (entries newResults) indexRight) Hlen Hdiag)
    as [->| ->]; [reflexivity |].
  rewrite insertion_pass_all_kept by now apply diagonal_kept.
  reflexivity.
Qed.

(** C4, amended.  For a result set whose entries are distinct objects and
    whose payloads are the contents of the observed array, and a registry
    whose EQ evaluators accept, on every resolved column, the field value of
    each of these entries against itself, applyDiff of the result set
    against itself leaves the store as it is: no element is removed from the
    observed array and none is added.  The call returns when the registry
    has an evaluator for every resolved column. *)
Theorem applyDiff_idempotent (R : Relation) (s : State) :
  NoDup (entries R) ->
  observed s = payloads deref (entries R) ->
  (forall entry column evalFn,
      In entry (entries R) ->
      In column (columns_ (self s)) ->
      getEvaluator (evalRegistry_ (self s)) (getType column) EQ = Some evalFn ->
      evalFn (getField (deref entry) column) (getField (deref entry) column)
      = true) ->
  snd (run_applyDiff (Some R) R s) = s /\
  changes (snd (run_applyDiff (Some R) R s)) = changes s /\
  observed (snd (run_applyDiff (Some R) R s)) = payloads deref (entries R) /\
  ((forall column, In column (columns_ (self s)) ->
      getEvaluator (evalRegistry_ (self s)) (getType column) EQ <> None) ->
   fst (run_applyDiff (Some R) R s) = Ok tt).
Proof.
  intros _ Hobs Hrefl.
  assert (Hsame : snd (run_applyDiff (Some R) R s) = s).
  { apply applyDiff_diagonal; [reflexivity |].
    simpl. intros k a b Ha Hb. assert (b = a) by congruence. subst b.
    apply comparator_reflexive. intros column evalFn.
    apply Hrefl. eauto using nth_error_In. }
  rewrite Hsame. repeat split; [exact Hobs |].
  apply applyDiff_returns.
Qed.

(** *** Results without repeated entries *)

Local Notation "'accepts' this" :=
  (fun old new => comparator_ getType EQ deref this old new = Ok true)
  (at level 10, this at level 9).

Lemma nth_map_Some {X : Type} (l : list X) (k : nat) :
  nth (0 + k) (map Some l) None = nth_error l k.
Proof. simpl. revert k. induction l; intros [|k]; simpl; auto. Qed.

(** The two runs of the longest common subsequence keep a subsequence of
    the old entries and a subsequence of the new entries, of the length of
    the path, that the comparator accepts pair by pair. *)
Lemma applyDiff_kept (this : DiffCalculator DataType Value Column EvalType)
      (oldEntries newEntries : list EntryRef) (pairs : list (nat * nat)) :
  longestCommonSubsequence (comparator_ getType EQ deref this) index_pair
                           oldEntries newEntries = Ok pairs ->
  exists keptOld keptNew,
    keepOld this oldEntries newEntries = Ok (map Some keptOld) /\
    keepNew this oldEntries newEntries = Ok (map Some keptNew) /\
    subseq keptOld oldEntries /\
    subseq keptNew newEntries /\
    Forall2 (accepts this) keptOld keptNew /\
    length keptOld = length pairs /\
    length keptNew = length pairs.
Proof.
  intros Hpairs.
  destruct (lcs_subseq _ _ _ _ Hpairs) as (kO & kN & HO & HN & HsO & HsN & Hall).
  exists kO, kN. unfold keepOld_of, keepNew_of.
  rewrite (lcs_collect _ _ _ _ (fun indexLeft _ : nat => nth_error oldEntries indexLeft)).
  rewrite (lcs_collect _ _ _ _ (fun _ indexRight : nat => nth_error newEntries indexRight)).
  rewrite Hpairs. simpl. rewrite HO, HN.
  repeat split; try assumption.
  - apply (f_equal (@length _)) in HO. now rewrite !length_map in HO.
  - apply (f_equal (@length _)) in HN. now rewrite !length_map in HN.
Qed.

(** What one call changes, for results without repeated entries: it adds a
    payload for each new entry outside the path, and removes at most one
    element for each old entry outside the path. *)
Lemma applyDiff_counts (oldResults : option Relation) (newResults : Relation)
      (s : State) (pairs : list (nat * nat)) :
  NoDup (oldEntries_of oldResults) ->
  NoDup (entries newResults) ->
  longestCommonSubsequence (comparator_ getType EQ deref (self s)) index_pair
                           (oldEntries_of oldResults) (entries newResults)
  = Ok pairs ->
  exists made,
    changes (snd (run_applyDiff oldResults newResults s)) = changes s ++ made /\
    insertions made = length (entries newResults) - length pairs /\
    removals made <= length (oldEntries_of oldResults) - length pairs.
Proof.
  intros HndO HndN Hpairs.
  destruct (applyDiff_kept _ _ _ _ Hpairs)
    as (kO & kN & HkO & HkN & HsO & HsN & _ & HlO & HlN).
  rewrite applyDiff_run, HkO, HkN.
  destruct (deletion_pass_counts (map Some kO) (oldEntries_of oldResults) kO 0 0 s
              HndO HsO (nth_map_Some kO))
    as (c1 & s1 & made1 & -> & Hch1 & Hrem1 & Hins1).
  destruct (insertion_pass_counts deref (map Some kN) (entries newResults) kN 0 0 s1
              HndN HsN (nth_map_Some kN))
    as (c2 & s2 & made2 & -> & Hch2 & Hrem2 & Hins2).
  exists (made1 ++ made2). simpl.
  rewrite Hch2, Hch1, <- app_assoc, removals_app, insertions_app.
  repeat split; lia.
Qed.

(** A call on results without repeated entries, when at most one old entry
    is outside the path and the observed array holds the payloads of the old
    entries: the call returns, and the array then holds, for each new entry
    in order, the payload of the old entry kept for it, or its own payload
    when no old entry is kept for it. *)
Lemma applyDiff_one_removal (oldResults : option Relation)
      (newResults : Relation) (s : State) (pairs : list (nat * nat)) :
  NoDup (oldEntries_of oldResults) ->
  NoDup (entries newResults) ->
  observed s = payloads deref (oldEntries_of oldResults) ->
  longestCommonSubsequence (comparator_ getType EQ deref (self s)) index_pair
                           (oldEntries_of oldResults) (entries newResults)
  = Ok pairs ->
  length (oldEntries_of oldResults) <= S (length pairs) ->
  fst (run_applyDiff oldResults newResults s) = Ok tt /\
  exists keptOld keptNew,
    subseq keptOld (oldEntries_of oldResults) /\
    subseq keptNew (entries newResults) /\
    Forall2 (accepts (self s)) keptOld keptNew /\
    observed (snd (run_applyDiff oldResults newResults s))
    = weave deref (entries newResults) keptNew (payloads deref keptOld).
Proof.
  intros HndO HndN Hobs Hpairs Hone.
  destruct (applyDiff_kept _ _ _ _ Hpairs)
    as (kO & kN & HkO & HkN & HsO & HsN & Hall & HlO & HlN).
  rewrite applyDiff_run, HkO, HkN.
  destruct (deletion_pass_one_removal deref (map Some kO)
              (oldEntries_of oldResults) kO [] 0 s
              HndO HsO (nth_map_Some kO))
    as (c1 & s1 & Hrun1 & Hobs1); [lia | exact Hobs |].
  simpl in Hrun1, Hobs1. rewrite Hrun1.
  destruct (insertion_pass_weave deref (map Some kN) (entries newResults) kN []
              (payloads deref kO) 0 s1 HndN HsN (nth_map_Some kN))
    as (c2 & s2 & Hrun2 & Hobs2);
    [unfold payloads; rewrite length_map; lia | exact Hobs1 |].
  simpl in Hrun2, Hobs2. rewrite Hrun2. simpl.
  split; [reflexivity |]. exists kO, kN. auto.
Qed.

(** When moreover entries that the comparator accepts as equal carry the same
    payload, the array then holds the payloads of the new entries. *)
Lemma applyDiff_converges_one_removal (oldResults : option Relation)
      (newResults : Relation) (s : State) (pairs : list (nat * nat)) :
  NoDup (oldEntries_of oldResults) ->
  NoDup (entries newResults) ->
  observed s = payloads deref (oldEntries_of oldResults) ->
  longestCommonSubsequence (comparator_ getType EQ deref (self s)) index_pair
                           (oldEntries_of oldResults) (entries newResults)
  = Ok pairs ->
  length (oldEntries_of oldResults) <= S (length pairs) ->
  (forall old new,
      In old (oldEntries_of oldResults) -> In new (entries newResults) ->
      comparator_ getType EQ deref (self s) old new = Ok true ->
      payload (row (deref old)) = payload (row (deref new))) ->
  fst (run_applyDiff oldResults newResults s) = Ok tt /\
  observed (snd (run_applyDiff oldResults newResults s))
  = payloads deref (entries newResults).
Proof.
  intros HndO HndN Hobs Hpairs Hone Hsame.
  destruct (applyDiff_one_removal oldResults newResults s pairs
              HndO HndN Hobs Hpairs Hone)
    as (Hret & kO & kN & HsO & HsN & Hall & Hfinal).
  split; [exact Hret |]. rewrite Hfinal.
  replace (payloads deref kO) with (payloads deref kN); [apply weave_same |].
  assert (HinO : forall o, In o kO -> In o (oldEntries_of oldResults))
    by (intros o; apply subseq_In; exact HsO).
  assert (HinN : forall n, In n kN -> In n (entries newResults))
    by (intros n; apply subseq_In; exact HsN).
  clear Hfinal HsO HsN.
  induction Hall as [|o n kO kN Hon Hall IH]; [reflexivity |].
  simpl. f_equal.
  - symmetry. apply Hsame; [apply HinO | apply HinN | exact Hon]; now left.
  - apply IH; intros x Hx; [apply HinO | apply HinN]; now right.
Qed.

(** C7.  A call with a null old result is the call with an old result
    without entries: the same outcome, the same store, the same recorded
    changes.  On an empty observed array both return, add the payload of
    every new entry in order, each at its index, remove nothing, and leave
    the payloads of the new entries in the array. *)
Theorem absent_old_equivalence (newResults : Relation) (s : State) :
  run_applyDiff None newResults s
  = run_applyDiff (Some {| entries := [] |}) newResults s /\
  (observed s = [] ->
   let s' := snd (run_applyDiff (Some {| entries := [] |}) newResults s) in
   fst (run_applyDiff None newResults s) = Ok tt /\
   observed s' = payloads deref (entries newResults) /\
   changes s' = changes s ++ additions_from deref 0 (entries newResults)).
Proof.
  split; [reflexivity |].
  intros Hobs. cbv zeta. rewrite !applyDiff_run. simpl.
  change (keepNew_of getType EQ deref (self s) [] (entries newResults))
    with (@Ok (list (option EntryRef)) []).
  destruct (insertion_pass_all_new deref (entries newResults) [] 0 s Hobs)
    as (s' & Hrun & _ & Hobs' & Hch).
  simpl in Hrun. rewrite Hrun. simpl. auto.
Qed.

(** C8.  The two runs of the longest common subsequence inside applyDiff
    are projections of one match set, the path of matched index pairs that a
    run over the same entries with the same comparator and the collector of
    index pairs returns.  When that run throws, applyDiff throws and leaves
    the store.  Otherwise applyDiff is its first loop with, for keepOld, the
    old entries at the left indices of the pairs, followed by its second
    loop with, for keepNew, the new entries at the right indices of the same
    pairs, and it returns.  The two runs as applyDiff writes them, with
    their own collectors, are these two projections, so they throw together
    and return together.  keepOld and keepNew have the same length, and for
    every position k the k-th pair is a pair of indices (i, j) with
    keepOld[k] the old entry at i, keepNew[k] the new entry at j, and the
    comparator returns true on the two.  The pairs increase on both sides.
    The runs return when the registry has an evaluator for every resolved
    column. *)
Theorem double_lcs_agreement (oldResults : option Relation)
        (newResults : Relation) (s : State) :
  let this := self s in
  let oldEntries := oldEntries_of oldResults in
  let newEntries := entries newResults in
  let matches :=
    longestCommonSubsequence (comparator_ getType EQ deref this) index_pair
                             oldEntries newEntries in
  run_applyDiff oldResults newResults s
  = match matches with
    | Throw => (Throw, s)
    | Ok pairs =>
        let kept := map (fun p => nth_error oldEntries (fst p)) pairs in
        let kept' := map (fun p => nth_error newEntries (snd p)) pairs in
        let s1 := snd (for_each (deletion_body kept) 0 oldEntries 0 s) in
        (Ok tt,
         snd (for_each (insertion_body deref kept') 0 newEntries 0 s1))
    end /\
  longestCommonSubsequence
    (comparator_ getType EQ deref this)
    (fun indexLeft indexRight => nth_error oldEntries indexLeft)
    oldEntries newEntries
  = result_map (map (fun p => nth_error oldEntries (fst p))) matches /\
  longestCommonSubsequence
    (comparator_ getType EQ deref this)
    (fun indexLeft indexRight => nth_error newEntries indexRight)
    oldEntries newEntries
  = result_map (map (fun p => nth_error newEntries (snd p))) matches /\
  (forall pairs,
      matches = Ok pairs ->
      let kept := map (fun p => nth_error oldEntries (fst p)) pairs in
      let kept' := map (fun p => nth_error newEntries (snd p)) pairs in
      length kept = length kept' /\
      StronglySorted before_pair pairs /\
      forall k, k < length kept ->
        exists i j old new,
          nth_error pairs k = Some (i, j) /\
          nth_error oldEntries i = Some old /\
          nth_error newEntries j = Some new /\
          nth_error kept k = Some (Some old) /\
          nth_error kept' k = Some (Some new) /\
          comparator_ getType EQ deref this old new = Ok true) /\
  ((forall column, In column (columns_ this) ->
      getEvaluator (evalRegistry_ this) (getType column) EQ <> None) ->
   exists pairs, matches = Ok pairs).
Proof.
  cbv zeta.
  assert (Hleft := lcs_collect (comparator_ getType EQ deref (self s))
                     (oldEntries_of oldResults) (entries newResults) _
                     (fun indexLeft _ : nat =>
                        nth_error (oldEntries_of oldResults) indexLeft)).
  assert (Hright := lcs_collect (comparator_ getType EQ deref (self s))
                      (oldEntries_of oldResults) (entries newResults) _
                      (fun _ indexRight : nat =>
                         nth_error (entries newResults) indexRight)).
  simpl in Hleft, Hright.
  split; [|split; [exact Hleft | split; [exact Hright | split]]].
  - rewrite applyDiff_run. unfold keepOld_of, keepNew_of.
    rewrite Hleft, Hright.
    destruct (longestCommonSubsequence _ index_pair _ _) as [pairs|];
      [|reflexivity].
    simpl.
    destruct (deletion_pass_patched
                (map (fun p => nth_error (oldEntries_of oldResults) (fst p))
                     pairs)
                (oldEntries_of oldResults) 0 0 s)
      as (c1 & s1 & -> & _).
    destruct (insertion_pass_patched deref
                (map (fun p => nth_error (entries newResults) (snd p)) pairs)
                (entries newResults) 0 0 s1)
      as (c2 & s2 & Hrun2 & _).
    simpl. now rewrite Hrun2.
  - intros pairs Hpairs. rewrite !length_map.
    destruct (lcs_matched _ _ _ _ Hpairs) as [Hmatched Hsorted].
    split; [reflexivity | split; [exact Hsorted |]].
    intros k Hk.
    destruct (nth_error_below pairs k Hk) as [[i j] Hp].
    rewrite Forall_forall in Hmatched.
    destruct (Hmatched (i, j) (nth_error_In _ _ Hp))
      as (old & new & Ho & Hn & Hcmp).
    simpl in Ho, Hn.
    exists i, j, old, new. rewrite !nth_error_map, Hp. simpl.
    rewrite Ho, Hn. auto 6.
  - intros Hres. apply lcs_returns. intros a b _ _.
    now apply comparator_returns.
Qed.

(** C10.  A select-all projection over tables without columns resolves to
    no column; with no resolved column the comparator returns true for every
    pair of entries, whatever their fields and payloads are; and applyDiff
    then takes the entries of two result sets of the same length for equal,
    index by index: it returns and leaves the store alone. *)
Theorem comparator_no_columns :
  (forall (global : Global DataType Value EvalType)
          (query : SelectContext Column) (observableResults : ArrayRef),
      columns query = [] ->
      (forall table, In table (from query) -> getColumns table = []) ->
      (forall table, innerJoin query = Some table -> getColumns table = []) ->
      columns_ (new_DiffCalculator global query observableResults) = []) /\
  (forall (this : DiffCalculator DataType Value Column EvalType)
          (left right : EntryRef),
      columns_ this = [] ->
      comparator_ getType EQ deref this left right = Ok true) /\
  (forall (oldResults : option Relation) (newResults : Relation) (s : State),
      columns_ (self s) = [] ->
      length (oldEntries_of oldResults) = length (entries newResults) ->
      run_applyDiff oldResults newResults s = (Ok tt, s)).
Proof.
  split; [|split].
  - intros global query observableResults Hcols Hfrom Hjoin. simpl.
    rewrite (detectColumns_select_all query Hcols).
    destruct (innerJoin query) as [table|].
    + rewrite (Hjoin table eq_refl), app_nil_r.
      induction (from query) as [|t l IH]; [reflexivity |]. simpl.
      rewrite (Hfrom t (or_introl eq_refl)). apply IH.
      intros t' Ht'. apply Hfrom. now right.
    + rewrite app_nil_r.
      induction (from query) as [|t l IH]; [reflexivity |]. simpl.
      rewrite (Hfrom t (or_introl eq_refl)). apply IH.
      intros t' Ht'. apply Hfrom. now right.
  - intros this left right Hcols. now apply comparator_nil.
  - intros oldResults newResults s Hcols Hlen.
    rewrite (surjective_pairing (run_applyDiff oldResults newResults s)).
    f_equal.
    + apply applyDiff_returns. rewrite Hcols. intros column [].
    + apply applyDiff_diagonal; [exact Hlen |].
      intros k a b _ _. rewrite comparator_nil by exact Hcols. discriminate.
Qed.

End ApplyDiffFacts.

(** ** The theorems at work on the small database *)

(** Old entries 1, 2, 3 against new entries 11, 13, 14: entry 2 goes and the
    payload of entry 14 is added.  The one removal finds its element, and
    the call is the deletion pass followed by the insertion pass. *)
Example scenario_two_passes :
  keepOld_of sample_getType tt sample_deref sample_calculator
             [1; 2; 3] [11; 13; 14] = Ok [Some 1; Some 3] /\
  keepNew_of sample_getType tt sample_deref sample_calculator
             [1; 2; 3] [11; 13; 14] = Ok [Some 11; Some 13] /\
  clos_refl_trans_1n _
    (deletion_step [1; 2; 3] [Some 1; Some 3])
    (0, 0, [101; 102; 103]) (3, 2, [101; 103]) /\
  clos_refl_trans_1n _
    (insertion_step sample_deref [11; 13; 14] [Some 11; Some 13])
    (0, 0, [101; 103]) (3, 2, [101; 103; 114]) /\
  fst (sample_applyDiff (Some {| entries := [1; 2; 3] |})
                        {| entries := [11; 13; 14] |}
                        (sample_state [101; 102; 103])) = Ok tt /\
  observed (snd (sample_applyDiff (Some {| entries := [1; 2; 3] |})
                                  {| entries := [11; 13; 14] |}
                                  (sample_state [101; 102; 103])))
  = [101; 103; 114].
Proof.
  assert (Hdel : clos_refl_trans_1n _
                   (deletion_step [1; 2; 3] [Some 1; Some 3])
                   (0, 0, [101; 102; 103]) (3, 2, [101; 103])).
  { eapply Relation_Operators.rt1n_trans.
    { apply deletion_retain with (entry := 1); reflexivity. }
    eapply Relation_Operators.rt1n_trans.
    { apply (@deletion_remove nat [1; 2; 3] [Some 1; Some 3] 1 1 [101] 102 [103] 2);
        [reflexivity | discriminate | reflexivity]. }
    eapply Relation_Operators.rt1n_trans.
    { apply deletion_retain with (entry := 3); reflexivity. }
    apply Relation_Operators.rt1n_refl. }
  assert (Hins : clos_refl_trans_1n _
                   (insertion_step sample_deref [11; 13; 14]
                                   [Some 11; Some 13])
                   (0, 0, [101; 103]) (3, 2, [101; 103; 114])).
  { eapply Relation_Operators.rt1n_trans.
    { apply insertion_present with (entry := 11); reflexivity. }
    eapply Relation_Operators.rt1n_trans.
    { apply insertion_present with (entry := 13); reflexivity. }
    eapply Relation_Operators.rt1n_trans.
    { apply (@insertion_insert nat nat nat sample_deref [11; 13; 14]
               [Some 11; Some 13] 2 2 [101; 103] [] 14);
        [reflexivity | discriminate | reflexivity]. }
    apply Relation_Operators.rt1n_refl. }
  split; [reflexivity | split; [reflexivity |]].
  split; [exact Hdel | split; [exact Hins |]].
  apply (two_pass_patch_in_range sample_getType tt sample_deref
           (Some {| entries := [1; 2; 3] |}) {| entries := [11; 13; 14] |}
           (sample_state [101; 102; 103]) [Some 1; Some 3]
           [Some 11; Some 13] 2 2 [101; 103] [101; 103; 114]);
    [reflexivity | reflexivity | exact Hdel | exact Hins].
Qed.

(** The comparator stops at column 0 when entries 1 and 2 differ there,
    and never asks for the missing evaluator of column 1. *)
Lemma comparator_spec_witness :
  comparator_ sample_getType tt sample_deref sample_wide_calculator 1 2
  = Ok false /\
  comparator_ sample_getType tt sample_deref sample_wide_calculator 1 11
  = Throw /\
  comparator_ sample_getType tt sample_deref sample_calculator 1 11 = Ok true.
Proof.
  split; [|split; [reflexivity |]].
  - apply (proj1 (proj2 (comparator_spec sample_getType tt sample_deref
                           sample_wide_calculator 1 2))
             [] 0 [1] Nat.eqb); try reflexivity.
    intros c [].
  - apply (proj1 (comparator_spec sample_getType tt sample_deref
                    sample_calculator 1 11)).
    intros column [<-|[]]. exists Nat.eqb. split; reflexivity.
Defined.

Lemma detectColumns_resolution_witness :
  detectColumns_ sample_wide_query = [0; 1] /\
  detectColumns_ {| columns := [];
                    from := [{| getColumns := [4; 5] |}];
                    innerJoin := Some {| getColumns := [6] |} |}
  = [4; 5; 6].
Proof.
  split.
  - apply (proj1 (detectColumns_resolution sample_wide_query)). discriminate.
  - apply (proj2 (proj2 (detectColumns_resolution sample_wide_query))).
Defined.

Lemma applyDiff_frame_witness :
  self (snd (sample_applyDiff (Some {| entries := [1; 2; 3] |})
                              {| entries := [11; 13; 14] |}
                              (sample_state [101; 102; 103])))
  = sample_calculator.
Proof.
  apply (proj1 (applyDiff_frame sample_getType tt sample_deref
                  (Some {| entries := [1; 2; 3] |})
                  {| entries := [11; 13; 14] |}
                  (sample_state [101; 102; 103]))).
Defined.

Lemma applyDiff_idempotent_witness :
  NoDup [1; 2; 3] /\
  observed (sample_state [101; 102; 103]) = payloads sample_deref [1; 2; 3] /\
  snd (sample_applyDiff (Some {| entries := [1; 2; 3] |})
                        {| entries := [1; 2; 3] |}
                        (sample_state [101; 102; 103]))
  = sample_state [101; 102; 103] /\
  fst (sample_applyDiff (Some {| entries := [1; 2; 3] |})
                        {| entries := [1; 2; 3] |}
                        (sample_state [101; 102; 103]))
  = Ok tt.
Proof.
  assert (Hnodup : NoDup [1; 2; 3]).
  { repeat constructor; simpl; intuition discriminate. }
  assert (Hobs : observed (sample_state [101; 102; 103])
                 = payloads sample_deref [1; 2; 3]) by reflexivity.
  destruct (applyDiff_idempotent sample_getType tt sample_deref
              {| entries := [1; 2; 3] |} (sample_state [101; 102; 103])
              Hnodup Hobs) as (Hsame & _ & _ & Hreturns).
  - intros entry column evalFn _ [<-|[]] [= <-]. apply Nat.eqb_refl.
  - split; [exact Hnodup | split; [exact Hobs | split; [exact Hsame |]]].
    apply Hreturns. intros column [<-|[]]. discriminate.
Defined.

Lemma absent_old_equivalence_witness :
  observed (sample_state []) = [] /\
  sample_applyDiff None {| entries := [11; 13; 14] |} (sample_state [])
  = sample_applyDiff (Some {| entries := [] |}) {| entries := [11; 13; 14] |}
                     (sample_state []) /\
  observed (snd (sample_applyDiff (Some {| entries := [] |})
                                  {| entries := [11; 13; 14] |}
                                  (sample_state [])))
  = [111; 113; 114].
Proof.
  destruct (absent_old_equivalence sample_getType tt sample_deref
              {| entries := [11; 13; 14] |} (sample_state []))
    as [Hsame Hempty].
  split; [reflexivity | split; [exact Hsame |]].
  apply (Hempty eq_refl).
Defined.

(** Old entries 1, 2, 3 against new entries 11, 13, 14: the pairs are
    (0, 0) and (2, 1), keepOld holds entries 1 and 3, keepNew entries 11 and
    13, and the call is the two loops over these. *)
Lemma double_lcs_agreement_witness :
  longestCommonSubsequence
    (comparator_ sample_getType tt sample_deref sample_calculator) index_pair
    [1; 2; 3] [11; 13; 14] = Ok [(0, 0); (2, 1)] /\
  sample_applyDiff (Some {| entries := [1; 2; 3] |})
                   {| entries := [11; 13; 14] |}
                   (sample_state [101; 102; 103])
  = (Ok tt,
     snd (for_each (insertion_body sample_deref [Some 11; Some 13]) 0
                   [11; 13; 14] 0
                   (snd (for_each (deletion_body [Some 1; Some 3]) 0
                                  [1; 2; 3] 0
                                  (sample_state [101; 102; 103]))))) /\
  length [Some 1; Some 3] = length [Some 11; Some 13] /\
  exists i j old new,
    nth_error [(0, 0); (2, 1)] 1 = Some (i, j) /\
    nth_error [1; 2; 3] i = Some old /\
    nth_error [11; 13; 14] j = Some new /\
    nth_error [Some 1; Some 3] 1 = Some (Some old) /\
    nth_error [Some 11; Some 13] 1 = Some (Some new) /\
    comparator_ sample_getType tt sample_deref sample_calculator old new
    = Ok true.
Proof.
  destruct (double_lcs_agreement sample_getType tt sample_deref
              (Some {| entries := [1; 2; 3] |}) {| entries := [11; 13; 14] |}
              (sample_state [101; 102; 103]))
    as (Hrun & _ & _ & Hpairs & _).
  destruct (Hpairs [(0, 0); (2, 1)] eq_refl) as (Hlen & _ & Hk).
  split; [reflexivity | split; [exact Hrun | split; [exact Hlen |]]].
  apply Hk. simpl. lia.
Defined.

Lemma comparator_no_columns_witness :
  sample_applyDiff (Some {| entries := [1; 2] |}) {| entries := [5; 6] |}
                   (sample_bare_state [101; 102])
  = (Ok tt, sample_bare_state [101; 102]).
Proof.
  apply (proj2 (proj2 (comparator_no_columns sample_getType tt sample_deref)));
    reflexivity.
Defined.

(** Rows 1, 2, 3 against rows 1, 3, 4: one removal (row 2), one addition
    (row 4, at the end), and the array holds rows 1, 3, 4. *)
Example scenario_one_removal_one_addition :
  let s' := snd (sample_applyDiff (Some {| entries := [1; 2; 3] |})
                                  {| entries := [11; 13; 14] |}
                                  (sample_state [101; 102; 103])) in
  observed s' = [101; 103; 114] /\
  changes s' = [{| index := 1; removed := [102]; added := [] |};
                {| index := 2; removed := []; added := [114] |}].
Proof. split; reflexivity. Qed.

(** The same call through the general statement: one old entry is outside
    the path, so the array ends with, for each new entry, the payload kept
    for it or its own. *)
Example scenario_by_one_removal :
  exists keptOld keptNew,
    subseq keptOld [1; 2; 3] /\
    subseq keptNew [11; 13; 14] /\
    observed (snd (sample_applyDiff (Some {| entries := [1; 2; 3] |})
                                    {| entries := [11; 13; 14] |}
                                    (sample_state [101; 102; 103])))
    = weave sample_deref [11; 13; 14] keptNew (payloads sample_deref keptOld).
Proof.
  destruct (applyDiff_one_removal sample_getType tt sample_deref
              (Some {| entries := [1; 2; 3] |}) {| entries := [11; 13; 14] |}
              (sample_state [101; 102; 103]) [(0, 0); (2, 1)])
    as (_ & keptOld & keptNew & Hold & Hnew & _ & Hfinal);
    try reflexivity; try (simpl; lia);
    try (repeat constructor; simpl; intuition discriminate).
  exists keptOld, keptNew. auto.
Qed.

(** ** Where [applyDiff] goes wrong *)

(** C1 fails on the code.  The observed array holds the payloads of the old
    entries 1 and 2 and the new result has no entry: the call returns and
    the payload of entry 2 stays in the array.  The first loop removes at the
    index of the entry in the old result, which after the first removal is
    one past the place of the entry in the array.  With old entries 1, 2, 3
    and the new entry 13, which matches entry 3, the payload of entry 2 is
    what stays. *)
Theorem convergence_fails_after_first_removal :
  (let oldResults := {| entries := [1; 2] |} in
   let newResults := {| entries := [] |} in
   let s := sample_state [101; 102] in
   let s' := snd (sample_applyDiff (Some oldResults) newResults s) in
   observed s = payloads sample_deref (entries oldResults) /\
   fst (sample_applyDiff (Some oldResults) newResults s) = Ok tt /\
   observed s' = [102] /\
   observed s' <> payloads sample_deref (entries newResults)) /\
  (let oldResults := {| entries := [1; 2; 3] |} in
   let newResults := {| entries := [13] |} in
   let s := sample_state [101; 102; 103] in
   let s' := snd (sample_applyDiff (Some oldResults) newResults s) in
   observed s = payloads sample_deref (entries oldResults) /\
   comparator_ sample_getType tt sample_deref sample_calculator 3 13
   = Ok true /\
   fst (sample_applyDiff (Some oldResults) newResults s) = Ok tt /\
   observed s' = [102] /\
   observed s' <> payloads sample_deref (entries newResults) /\
   observed s' <> payloads sample_deref [3]).
Proof. cbv zeta. repeat split; discriminate. Qed.

(** C3 fails on the code.  Old entries 1 and 2, distinct objects whose
    payloads are the observed array, against a new result without entries:
    no index pair is a match, the longest common subsequence is empty, and
    the call removes one element where two removals are due.  The second
    call of splice is at index 1 of an array of length 1 and removes
    nothing. *)
Theorem minimality_fails_after_first_removal :
  let oldResults := {| entries := [1; 2] |} in
  let newResults := {| entries := [] |} in
  let s := sample_state [101; 102] in
  let s' := snd (sample_applyDiff (Some oldResults) newResults s) in
  let made := changes s' in
  NoDup (entries oldResults) /\
  NoDup (entries newResults) /\
  observed s = payloads sample_deref (entries oldResults) /\
  (forall pair,
      ~ matched (comparator_ sample_getType tt sample_deref sample_calculator)
                (entries oldResults) (entries newResults) pair) /\
  longestCommonSubsequence
    (comparator_ sample_getType tt sample_deref sample_calculator) index_pair
    (entries oldResults) (entries newResults) = Ok [] /\
  made = [{| index := 0; removed := [101]; added := [] |}] /\
  removals made = 1 /\
  insertions made = 0 /\
  removals made <> length (entries oldResults) - 0 /\
  removals made + insertions made
  <> length (entries oldResults) + length (entries newResults) - 2 * 0.
Proof.
  cbv zeta.
  split; [repeat constructor; simpl; intuition discriminate |].
  split; [constructor |].
  split; [reflexivity |].
  split; [|repeat split; discriminate].
  intros pair (a & b & _ & Hb & _). now destruct (snd pair).
Qed.

(** C2 fails on the code.  Old entries 1 and 2 against a new result without
    entries, on the observed array that holds their payloads: keepOld is
    empty, so neither entry is the instance under the cursor and each turn
    of the first loop is due to remove one element at its index.  The turn
    at index 0 does: it is the removal step, from the sequence 101, 102 to
    the sequence 102.  The turn at index 1 calls splice at index 1 of an
    array that has one element left: nothing is there, nothing is removed,
    no change is recorded, and no step of the deletion pass leaves that
    state.  So the sequence of steps that the claim describes cannot be
    carried through the old entries, and the call returns with the payload
    of entry 2 in the array. *)
Theorem deletion_step_finds_no_element :
  let oldEntries := [1; 2] in
  let newResults := {| entries := [] |} in
  let s := sample_state [101; 102] in
  let s1 := snd (deletion_body [] 0 1 0 s) in
  let s2 := snd (deletion_body [] 1 2 0 s1) in
  observed s = payloads sample_deref oldEntries /\
  keepOld_of sample_getType tt sample_deref (self s) oldEntries
             (entries newResults) = Ok [] /\
  (deletion_body [] 0 1 0 s = (Ok 0, s1) /\
   deletion_step oldEntries [] (0, 0, observed s) (1, 0, observed s1) /\
   observed s1 = [102]) /\
  (same_object (nth 0 [] None) 2 = false /\
   deletion_body [] 1 2 0 s1 = (Ok 0, s2) /\
   observed s2 = observed s1 /\
   changes s2 = changes s1 /\
   forall next, ~ deletion_step oldEntries [] (1, 0, observed s1) next) /\
  for_each (deletion_body []) 0 oldEntries 0 s = (Ok 0, s2) /\
  ~ (exists c middle,
        clos_refl_trans_1n _ (deletion_step oldEntries [])
                           (0, 0, observed s)
                           (length oldEntries, c, middle)) /\
  sample_applyDiff (Some {| entries := oldEntries |}) newResults s
  = (Ok tt, s2) /\
  observed s2 = [102].
Proof.
  cbv zeta.
  assert (Hnone : forall next : pass_state nat,
             ~ deletion_step [1; 2] [] (1, 0, [102]) next).
  { intros next Hstep. inversion Hstep; subst.
    - match goal with H : nth_error [] 0 = Some _ |- _ => discriminate H end.
    - match goal with
      | Hlen : length ?before = 1, Hseq : ?before ++ _ :: _ = [102] |- _ =>
          destruct before as [|y [|z before]]; simpl in Hlen, Hseq;
            discriminate
      end. }
  split; [reflexivity |].
  split; [reflexivity |].
  split.
  { split; [reflexivity |]. split; [|reflexivity].
    apply (@deletion_remove nat [1; 2] [] 0 0 [] 101 [102] 1);
      [reflexivity | discriminate | reflexivity]. }
  split.
  { split; [reflexivity |]. split; [reflexivity |].
    split; [reflexivity |]. split; [reflexivity |]. exact Hnone. }
  split; [reflexivity |].
  split; [|split; reflexivity].
  intros (c & middle & Hsteps).
  inversion Hsteps as [|y z Hstep Htail]; subst.
  inversion Hstep; subst.
  - match goal with H : nth_error [] 0 = Some _ |- _ => discriminate H end.
  - match goal with
    | Hlen : length ?before = 0, Hseq : ?before ++ _ :: _ = _ |- _ =>
        destruct before as [|y0 before]; [|discriminate Hlen];
          simpl in Hseq; injection Hseq as -> ->
    end.
    simpl in Htail.
    inversion Htail as [|y z Hstep' Htail']; subst.
    exact (Hnone _ Hstep').
Qed.

(** C4 fails on the code as the claim states it.  Entries 1, 9, 3, pairwise
    distinct, on the observed array that holds their payloads, with a
    registry whose evaluator rejects the field value 9 against itself: the
    comparator rejects entry 9 against entry 9, the longest common
    subsequence leaves it out, and the call of applyDiff on the result
    against itself removes the payload of entry 9 and inserts it again, one
    removal and one insertion. *)
Lemma idempotence_fails_for_irreflexive_evaluator :
  NoDup [1; 9; 3] /\
  observed (sample_nan_state [101; 109; 103])
  = payloads sample_deref [1; 9; 3] /\
  comparator_ sample_getType tt sample_deref sample_nan_calculator 9 9
  = Ok false /\
  fst (sample_applyDiff (Some {| entries := [1; 9; 3] |})
                        {| entries := [1; 9; 3] |}
                        (sample_nan_state [101; 109; 103]))
  = Ok tt /\
  changes (snd (sample_applyDiff (Some {| entries := [1; 9; 3] |})
                                 {| entries := [1; 9; 3] |}
                                 (sample_nan_state [101; 109; 103])))
  = [{| index := 1; removed := [109]; added := [] |};
     {| index := 1; removed := []; added := [109] |}] /\
  removals (changes (snd (sample_applyDiff
                            (Some {| entries := [1; 9; 3] |})
                            {| entries := [1; 9; 3] |}
                            (sample_nan_state [101; 109; 103]))))
  = 1 /\
  insertions (changes (snd (sample_applyDiff
                              (Some {| entries := [1; 9; 3] |})
                              {| entries := [1; 9; 3] |}
                              (sample_nan_state [101; 109; 103]))))
  = 1 /\
  snd (sample_applyDiff (Some {| entries := [1; 9; 3] |})
                        {| entries := [1; 9; 3] |}
                        (sample_nan_state [101; 109; 103]))
  <> sample_nan_state [101; 109; 103].
Proof.
  split; [repeat constructor; simpl; intuition discriminate |].
  repeat (split; [reflexivity |]).
  intros Heq. apply (f_equal (fun s => length (changes s))) in Heq.
  discriminate Heq.
Qed.

(** ** More about the comparator, the resolved columns and [applyDiff] *)

Section EveryMore.
Context {A : Type}.
Variable callback : A -> result bool.

(** An outcome other than true comes from the first element that the
    callback does not accept. *)
Lemma every_stopped_iff (l : list A) (r : result bool) :
  r <> Ok true ->
  (every callback l = r <->
   exists before x after,
     l = before ++ x :: after /\
     (forall y, In y before -> callback y = Ok true) /\
     callback x = r).
Proof.
  intros Hr. induction l as [|x rest IH]; simpl.
  - split; [congruence |]. intros (before & y & after & Heq & _).
    now destruct before.
  - destruct (callback x) as [[|]|] eqn:Hx; simpl.
    + rewrite IH. split.
      * intros (before & y & after & -> & Hbefore & Hy).
        exists (x :: before), y, after. split; [reflexivity | split; [|exact Hy]].
        intros z [<-|Hz]; auto.
      * intros (before & y & after & Heq & Hbefore & Hy).
        destruct before as [|b before]; simpl in Heq; injection Heq as <- ->.
        -- congruence.
        -- exists before, y, after. split; [reflexivity | split; [|exact Hy]].
           intros z Hz. apply Hbefore. now right.
    + split.
      * intros <-. exists [], x, rest. split; [reflexivity | split; [intros y [] | exact Hx]].
      * intros (before & y & after & Heq & Hbefore & Hy).
        destruct before as [|b before]; simpl in Heq; injection Heq as <- ->.
        -- congruence.
        -- specialize (Hbefore x (or_introl eq_refl)). congruence.
    + split.
      * intros <-. exists [], x, rest. split; [reflexivity | split; [intros y [] | exact Hx]].
      * intros (before & y & after & Heq & Hbefore & Hy).
        destruct before as [|b before]; simpl in Heq; injection Heq as <- ->.
        -- congruence.
        -- specialize (Hbefore x (or_introl eq_refl)). congruence.
Qed.
End EveryMore.

Section ComparatorMore.
Context {DataType Value Payload Column EvalType : Type}.
Variable getType : Column -> DataType.
Variable EQ : EvalType.
Variable deref : EntryRef -> RelationEntry Value Payload Column.

Local Notation "'compare'" := (comparator_ getType EQ deref).

(** X1.  The comparator throws exactly when some resolved column has no
    evaluator in the registry and every column before it has an evaluator
    that accepts the two field values: a rejecting column in front of the
    column without evaluator hides the failure. *)
Theorem comparator_throws_iff
        (this : DiffCalculator DataType Value Column EvalType)
        (left right : EntryRef) :
  compare this left right = Throw <->
  exists before column after,
    columns_ this = before ++ column :: after /\
    (forall c, In c before ->
       exists evalFn,
         getEvaluator (evalRegistry_ this) (getType c) EQ = Some evalFn /\
         evalFn (getField (deref left) c) (getField (deref right) c) = true) /\
    getEvaluator (evalRegistry_ this) (getType column) EQ = None.
Proof.
  unfold comparator_. rewrite every_stopped_iff by discriminate.
  split; intros (before & column & after & Hcols & Hbefore & Hcol);
    exists before, column, after; (split; [exact Hcols | split]).
  - intros c Hc. specialize (Hbefore c Hc). unfold compareColumn in Hbefore.
    destruct (getEvaluator _ _ _) as [evalFn|]; [|discriminate].
    exists evalFn. split; [reflexivity | congruence].
  - unfold compareColumn in Hcol.
    destruct (getEvaluator _ _ _); [discriminate | reflexivity].
  - intros c Hc. destruct (Hbefore c Hc) as (evalFn & Hev & Htrue).
    unfold compareColumn. now rewrite Hev, Htrue.
  - unfold compareColumn. now rewrite Hcol.
Qed.

(** X2.  The comparator returns false exactly when some resolved column
    has an evaluator that rejects the two field values and every column
    before it has an evaluator that accepts them. *)
Theorem comparator_false_iff
        (this : DiffCalculator DataType Value Column EvalType)
        (left right : EntryRef) :
  compare this left right = Ok false <->
  exists before column after evalFn,
    columns_ this = before ++ column :: after /\
    (forall c, In c before ->
       exists evalFn',
         getEvaluator (evalRegistry_ this) (getType c) EQ = Some evalFn' /\
         evalFn' (getField (deref left) c) (getField (deref right) c) = true) /\
    getEvaluator (evalRegistry_ this) (getType column) EQ = Some evalFn /\
    evalFn (getField (deref left) column) (getField (deref right) column)
    = false.
Proof.
  unfold comparator_. rewrite every_stopped_iff by discriminate. split.
  - intros (before & column & after & Hcols & Hbefore & Hcol).
    unfold compareColumn in Hcol.
    destruct (getEvaluator (evalRegistry_ this) (getType column) EQ)
      as [evalFn|] eqn:Hev; [|discriminate].
    exists before, column, after, evalFn.
    split; [exact Hcols | split; [|split; [exact Hev | congruence]]].
    intros c Hc. specialize (Hbefore c Hc). unfold compareColumn in Hbefore.
    destruct (getEvaluator _ _ _) as [evalFn'|]; [|discriminate].
    exists evalFn'. split; [reflexivity | congruence].
  - intros (before & column & after & evalFn & Hcols & Hbefore & Hev & Hfalse).
    exists before, column, after. split; [exact Hcols | split].
    + intros c Hc. destruct (Hbefore c Hc) as (evalFn' & Hev' & Htrue).
      unfold compareColumn. now rewrite Hev', Htrue.
    + unfold compareColumn. now rewrite Hev, Hfalse.
Qed.

(** X3.  When the evaluators of the resolved columns give the same answer
    on the field values of two entries in either order, comparing left with
    right gives the outcome of comparing right with left, a throw
    included. *)
Theorem comparator_symmetric
        (this : DiffCalculator DataType Value Column EvalType)
        (left right : EntryRef) :
  (forall column evalFn,
      In column (columns_ this) ->
      getEvaluator (evalRegistry_ this) (getType column) EQ = Some evalFn ->
      evalFn (getField (deref left) column) (getField (deref right) column)
      = evalFn (getField (deref right) column) (getField (deref left) column)) ->
  compare this left right = compare this right left.
Proof.
  intros Hsym. unfold comparator_. apply every_ext.
  intros column Hin. unfold compareColumn.
  destruct (getEvaluator _ _ _) as [evalFn|] eqn:Hev; [|reflexivity].
  f_equal. now apply Hsym.
Qed.

(** X4.  When the evaluators of the resolved columns are transitive on the
    field values of three entries, so is the comparator: it accepts the first
    against the third when it accepts the first against the second and the
    second against the third. *)
Theorem comparator_transitive
        (this : DiffCalculator DataType Value Column EvalType)
        (a b c : EntryRef) :
  (forall column evalFn,
      In column (columns_ this) ->
      getEvaluator (evalRegistry_ this) (getType column) EQ = Some evalFn ->
      evalFn (getField (deref a) column) (getField (deref b) column) = true ->
      evalFn (getField (deref b) column) (getField (deref c) column) = true ->
      evalFn (getField (deref a) column) (getField (deref c) column) = true) ->
  compare this a b = Ok true ->
  compare this b c = Ok true ->
  compare this a c = Ok true.
Proof.
  intros Htrans Hab Hbc. rewrite comparator_true_iff in *.
  intros column Hin.
  destruct (Hab column Hin) as (evalFn & Hev & Htrue).
  destruct (Hbc column Hin) as (evalFn' & Hev' & Htrue').
  assert (evalFn' = evalFn) by congruence. subst evalFn'.
  exists evalFn. split; [exact Hev |]. now apply (Htrans column).
Qed.

(** X5.  For a calculator constructed from a query without projected
    columns, the comparator returns true exactly when every column of every
    table of the from clause and of the joined table has an evaluator that
    accepts the two field values. *)
Theorem comparator_select_all
        (global : Global DataType Value EvalType)
        (query : SelectContext Column) (observableResults : ArrayRef)
        (left right : EntryRef) :
  columns query = [] ->
  (compare (new_DiffCalculator global query observableResults) left right
   = Ok true <->
   forall table column,
     In table (from query) \/ innerJoin query = Some table ->
     In column (getColumns table) ->
     exists evalFn,
       getEvaluator (getService_EVAL_REGISTRY global) (getType column) EQ
       = Some evalFn /\
       evalFn (getField (deref left) column) (getField (deref right) column)
       = true).
Proof.
  intros Hcols. rewrite comparator_true_iff. simpl.
  rewrite (detectColumns_select_all query Hcols). split.
  - intros H table column Htable Hcolumn. apply H. apply in_app_iff.
    destruct Htable as [Hfrom|Hjoin].
    + left. apply in_concat. exists (getColumns table).
      split; [now apply in_map | exact Hcolumn].
    + right. now rewrite Hjoin.
  - intros H column Hin. apply in_app_iff in Hin. destruct Hin as [Hin|Hin].
    + apply in_concat in Hin. destruct Hin as (cols & Hcolsin & Hcolumn).
      apply in_map_iff in Hcolsin. destruct Hcolsin as (table & <- & Htable).
      apply (H table); auto.
    + destruct (innerJoin query) as [table|] eqn:Hjoin; [|destruct Hin].
      apply (H table); auto.
Qed.

(** X6.  The resolved column list is empty, so that the comparator accepts
    every pair, exactly when the query projects no column and neither a
    table of the from clause nor the joined table has a column. *)
Theorem detectColumns_empty_iff (query : SelectContext Column) :
  detectColumns_ query = [] <->
  columns query = [] /\
  (forall table, In table (from query) -> getColumns table = []) /\
  (forall table, innerJoin query = Some table -> getColumns table = []).
Proof.
  destruct (columns query) as [|column cols] eqn:Hcols.
  - rewrite (detectColumns_select_all query Hcols). split.
    + intros Hnil. apply app_eq_nil in Hnil. destruct Hnil as [Hfrom Hjoin].
      split; [reflexivity | split].
      * intros table Hin.
        assert (Hsub : In (getColumns table)
                          (map (@getColumns Column) (from query)))
          by now apply in_map.
        destruct (getColumns table) as [|c l]; [reflexivity |].
        assert (In c (concat (map (@getColumns Column) (from query)))).
        { apply in_concat. exists (c :: l). split; [exact Hsub | now left]. }
        rewrite Hfrom in H. destruct H.
      * intros table Heq. now rewrite Heq in Hjoin.
    + intros (_ & Hfrom & Hjoin).
      replace (concat (map (@getColumns Column) (from query)))
        with (@nil Column).
      * destruct (innerJoin query) as [table|]; [|reflexivity].
        now rewrite (Hjoin table eq_refl).
      * symmetry. induction (from query) as [|t l IH]; [reflexivity |]. simpl.
        rewrite (Hfrom t (or_introl eq_refl)). apply IH.
        intros t' Ht'. apply Hfrom. now right.
  - unfold detectColumns_. rewrite Hcols. simpl.
    split; [discriminate | intros (Hnil & _); discriminate].
Qed.

End ComparatorMore.

Section LcsMore.
Context {A B : Type}.
Variables (f g : A -> B -> result bool).
Variables (sequenceA : list A) (sequenceB : list B).

Lemma table_row_ext (a : A) :
  forall l above left,
    (forall b, In b l -> f a b = g a b) ->
    table_row f a l above left = table_row g a l above left.
Proof.
  induction l as [|b l IH]; intros above left Hfg; [reflexivity |].
  destruct above as [|diag [|up above]]; try reflexivity.
  cbn [table_row]. rewrite (Hfg b (or_introl eq_refl)).
  destruct (g a b) as [same|]; [|reflexivity]. cbn [rbind].
  rewrite IH; [reflexivity |]. intros b' Hb'. apply Hfg. now right.
Qed.

Lemma table_rows_ext :
  forall l above,
    (forall a b, In a l -> In b sequenceB -> f a b = g a b) ->
    table_rows f l sequenceB above = table_rows g l sequenceB above.
Proof.
  induction l as [|a l IH]; intros above Hfg; [reflexivity |].
  cbn [table_rows].
  rewrite (table_row_ext a sequenceB above 0)
    by (intros b Hb; apply Hfg; [now left | exact Hb]).
  destruct (table_row g a sequenceB above 0) as [cells|]; [|reflexivity].
  cbn [rbind]. rewrite IH; [reflexivity |].
  intros a' b Ha' Hb. apply Hfg; [now right | exact Hb].
Qed.

Lemma backtrack_ext (T : Type) (collectFn : nat -> nat -> T)
      (table : list (list nat)) :
  (forall a b, In a sequenceA -> In b sequenceB -> f a b = g a b) ->
  forall i j acc,
    backtrack f collectFn sequenceA sequenceB table i j acc
    = backtrack g collectFn sequenceA sequenceB table i j acc.
Proof.
  intros Hfg i j. pattern i, j. apply walk_ind; clear i j.
  - reflexivity.
  - intros i acc. now rewrite !backtrack_column0.
  - intros i j IHdiag IHleft IHup acc. rewrite !backtrack_cell.
    destruct (nth_error sequenceA i) as [a|] eqn:Ha; [|reflexivity].
    destruct (nth_error sequenceB j) as [b|] eqn:Hb; [|reflexivity].
    rewrite (Hfg a b (nth_error_In _ _ Ha) (nth_error_In _ _ Hb)).
    destruct (g a b) as [[|]|]; cbn [rbind]; [apply IHdiag | | reflexivity].
    destruct (_ <? _); [apply IHleft | apply IHup].
Qed.

(** The run consults the comparison on pairs of an element of the one
    sequence and an element of the other, and on nothing else. *)
Lemma lcs_ext (T : Type) (collectFn : nat -> nat -> T) :
  (forall a b, In a sequenceA -> In b sequenceB -> f a b = g a b) ->
  longestCommonSubsequence f collectFn sequenceA sequenceB
  = longestCommonSubsequence g collectFn sequenceA sequenceB.
Proof.
  intros Hfg. unfold longestCommonSubsequence, lcs_table.
  rewrite (table_rows_ext sequenceA _ Hfg).
  destruct (table_rows g sequenceA sequenceB _) as [rows|]; [|reflexivity].
  cbn [rbind]. now apply backtrack_ext.
Qed.

End LcsMore.

Section LcsThrows.
Context {A B : Type}.
Variable equalFn : A -> B -> result bool.
Variables (sequenceA : list A) (sequenceB : list B).

Lemma table_row_throws (a : A) :
  forall l above left,
    length above = S (length l) ->
    (table_row equalFn a l above left = Throw <->
     exists b, In b l /\ equalFn a b = Throw).
Proof.
  induction l as [|b0 l IH]; intros above left Hlen.
  - split; [discriminate | intros (b & [] & _)].
  - destruct above as [|diag [|up above]]; try discriminate.
    cbn [table_row].
    destruct (equalFn a b0) as [same|] eqn:Hab0; cbn [rbind].
    + specialize (IH (up :: above) (if same then diag + 1 else Nat.max up left)
                     ltac:(simpl in *; lia)).
      destruct (table_row equalFn a l (up :: above) _) as [rest|]; cbn [rbind].
      * split; [discriminate |]. intros (b & [<-|Hb] & Hthrow); [congruence |].
        apply proj2 in IH. discriminate IH. now exists b.
      * split; [|reflexivity]. intros _.
        destruct (proj1 IH eq_refl) as (b & Hb & Hthrow).
        exists b. split; [now right | exact Hthrow].
    + split; [|reflexivity]. intros _. exists b0. split; [now left | exact Hab0].
Qed.

Lemma table_rows_throws :
  forall l above,
    length above = S (length sequenceB) ->
    (table_rows equalFn l sequenceB above = Throw <->
     exists a b, In a l /\ In b sequenceB /\ equalFn a b = Throw).
Proof.
  induction l as [|a l IH]; intros above Hlen.
  - split; [discriminate | intros (a & b & [] & _)].
  - cbn [table_rows].
    pose proof (table_row_throws a sequenceB above 0 Hlen) as Hrow.
    destruct (table_row equalFn a sequenceB above 0) as [cells|] eqn:Hcells;
      cbn [rbind].
    + destruct (table_row_cells _ _ _ _ _ _ Hcells Hlen) as [Hlen' _].
      specialize (IH (0 :: cells) ltac:(simpl; lia)).
      destruct (table_rows equalFn l sequenceB (0 :: cells)) as [rows|];
        cbn [rbind].
      * split; [discriminate |].
        intros (a' & b & [<-|Ha'] & Hb & Hthrow).
        -- apply proj2 in Hrow. discriminate Hrow. now exists b.
        -- apply proj2 in IH. discriminate IH. now exists a', b.
      * split; [|reflexivity]. intros _.
        destruct (proj1 IH eq_refl) as (a' & b & Ha' & Hb & Hthrow).
        exists a', b. split; [now right | now split].
    + split; [|reflexivity]. intros _.
      destruct (proj1 Hrow eq_refl) as (b & Hb & Hthrow).
      exists a, b. split; [now left | now split].
Qed.

Lemma backtrack_throws (T : Type) (collectFn : nat -> nat -> T)
      (table : list (list nat)) (i j : nat) :
  i <= length sequenceA -> j <= length sequenceB ->
  forall acc,
    backtrack equalFn collectFn sequenceA sequenceB table i j acc = Throw ->
    exists a b, In a sequenceA /\ In b sequenceB /\ equalFn a b = Throw.
Proof.
  pattern i, j. apply walk_ind; clear i j.
  - discriminate.
  - intros i _ _ acc. rewrite backtrack_column0. discriminate.
  - intros i j IHdiag IHleft IHup Hi Hj acc. rewrite backtrack_cell.
    destruct (nth_error_below sequenceA i Hi) as [a Ha].
    destruct (nth_error_below sequenceB j Hj) as [b Hb].
    rewrite Ha, Hb.
    destruct (equalFn a b) as [[|]|] eqn:Hab; cbn [rbind].
    + apply IHdiag; lia.
    + destruct (_ <? _); [apply IHleft | apply IHup]; lia.
    + intros _. exists a, b. eauto using nth_error_In.
Qed.

(** The run throws exactly when the comparison throws on some pair of an
    element of the one sequence and an element of the other. *)
Lemma lcs_throws_iff (T : Type) (collectFn : nat -> nat -> T) :
  longestCommonSubsequence equalFn collectFn sequenceA sequenceB = Throw <->
  exists a b, In a sequenceA /\ In b sequenceB /\ equalFn a b = Throw.
Proof.
  unfold longestCommonSubsequence, lcs_table.
  pose proof (table_rows_throws sequenceA (repeat 0 (S (length sequenceB)))
                (repeat_length _ _)) as Hrows.
  destruct (table_rows equalFn sequenceA sequenceB _) as [rows|]; cbn [rbind].
  - split.
    + apply backtrack_throws; lia.
    + intros Hpair. apply proj2 in Hrows. discriminate (Hrows Hpair).
  - split; [|reflexivity]. intros _. now apply Hrows.
Qed.

End LcsThrows.

Section LcsEmpty.
Context {A B T : Type}.
Variable equalFn : A -> B -> result bool.
Variable collectFn : nat -> nat -> T.

Lemma lcs_empty_l (sequenceB : list B) :
  longestCommonSubsequence equalFn collectFn [] sequenceB = Ok [].
Proof. reflexivity. Qed.

Lemma lcs_empty_r (sequenceA : list A) :
  longestCommonSubsequence equalFn collectFn sequenceA [] = Ok [].
Proof.
  unfold longestCommonSubsequence.
  destruct (lcs_table_returns equalFn sequenceA []) as [table ->];
    [intros a b _ [] |].
  cbn [rbind]. apply backtrack_column0.
Qed.
End LcsEmpty.

Section ApplyDiffMore.

Context {DataType Value Payload Column EvalType : Type}.
Variable getType : Column -> DataType.
Variable EQ : EvalType.
Variable deref : EntryRef -> RelationEntry Value Payload Column.

Local Notation "'State'" := (State DataType Value Payload Column EvalType).
Local Notation "'run_applyDiff'" := (applyDiff getType EQ deref).
Local Notation "'keepOld'" := (keepOld_of getType EQ deref).
Local Notation "'keepNew'" := (keepNew_of getType EQ deref).
Local Notation "'compare'" := (comparator_ getType EQ deref).
Local Notation "'resolved' this" :=
  (forall column, In column (columns_ this) ->
     getEvaluator (evalRegistry_ this) (getType column) EQ <> None)
  (at level 10, this at level 9).


(** X7.  A call of applyDiff returns, or it throws and leaves the store as
    it found it: no element of the observed array is removed or added before
    a throw. *)
Theorem applyDiff_all_or_nothing (oldResults : option Relation)
        (newResults : Relation) (s : State) :
  fst (run_applyDiff oldResults newResults s) = Ok tt \/
  run_applyDiff oldResults newResults s = (Throw, s).
Proof.
  rewrite applyDiff_run. unfold keepOld_of, keepNew_of.
  rewrite (lcs_collect _ _ _ _
             (fun indexLeft _ : nat =>
                nth_error (oldEntries_of oldResults) indexLeft)).
  rewrite (lcs_collect _ _ _ _
             (fun _ indexRight : nat =>
                nth_error (entries newResults) indexRight)).
  destruct (longestCommonSubsequence _ index_pair _ _) as [pairs|];
    [|now right].
  cbn [result_map].
  destruct (deletion_pass_patched
              (map (fun p => nth_error (oldEntries_of oldResults) (fst p)) pairs)
              (oldEntries_of oldResults) 0 0 s) as (c1 & s1 & -> & _).
  destruct (insertion_pass_patched deref
              (map (fun p => nth_error (entries newResults) (snd p)) pairs)
              (entries newResults) 0 0 s1) as (c2 & s2 & -> & _).
  now left.
Qed.

(** X8.  A call of applyDiff throws exactly when the comparator throws on
    some pair of an old entry and a new entry; so it returns on an empty old
    or new result, whatever the registry holds. *)
Theorem applyDiff_throws_iff (oldResults : option Relation)
        (newResults : Relation) (s : State) :
  fst (run_applyDiff oldResults newResults s) = Throw <->
  exists old new,
    In old (oldEntries_of oldResults) /\
    In new (entries newResults) /\
    compare (self s) old new = Throw.
Proof.
  rewrite applyDiff_run. unfold keepOld_of, keepNew_of. split.
  - destruct (longestCommonSubsequence _ _ _ _) as [kept|] eqn:Hleft;
      [|intros _; now apply lcs_throws_iff in Hleft].
    destruct (deletion_pass_patched kept (oldEntries_of oldResults) 0 0 s)
      as (c1 & s1 & -> & _).
    destruct (longestCommonSubsequence
                (compare (self s))
                (fun _ indexRight : nat =>
                   nth_error (entries newResults) indexRight)
                (oldEntries_of oldResults) (entries newResults))
      as [kept'|] eqn:Hright;
      [|intros _; now apply lcs_throws_iff in Hright].
    destruct (insertion_pass_patched deref kept' (entries newResults) 0 0 s1)
      as (c2 & s2 & -> & _).
    discriminate.
  - intros Hpair.
    rewrite (proj2 (lcs_throws_iff (compare (self s))
                      (oldEntries_of oldResults) (entries newResults) _ _)
                   Hpair).
    reflexivity.
Qed.

Lemma applyDiff_empty_returns (oldResults : option Relation)
      (newResults : Relation) (s : State) :
  oldEntries_of oldResults = [] \/ entries newResults = [] ->
  fst (run_applyDiff oldResults newResults s) = Ok tt.
Proof.
  intros Hempty. rewrite applyDiff_run. unfold keepOld_of, keepNew_of.
  assert (Hlcs : forall (collectFn : nat -> nat -> option EntryRef),
             longestCommonSubsequence (compare (self s)) collectFn
               (oldEntries_of oldResults) (entries newResults) = Ok []).
  { intros collectFn. destruct Hempty as [-> | ->];
      [apply lcs_empty_l | apply lcs_empty_r]. }
  rewrite !Hlcs.
  destruct (deletion_pass_patched [] (oldEntries_of oldResults) 0 0 s)
    as (c1 & s1 & -> & _).
  destruct (insertion_pass_patched deref [] (entries newResults) 0 0 s1)
    as (c2 & s2 & -> & _).
  reflexivity.
Qed.

(** With nothing kept and an index past the end of the array, the first
    loop has nothing to remove. *)
Lemma deletion_pass_exhausted :
  forall rest i c (s : State),
    length (observed s) <= i ->
    exists s',
      for_each (deletion_body []) i rest c s = (Ok c, s') /\
      self s' = self s /\
      observed s' = observed s.
Proof.
  induction rest as [|entry rest IH]; intros i c s Hlen; cbn [for_each].
  - now exists s.
  - unfold bind. rewrite deletion_body_run.
    replace (nth c [] None) with (@None EntryRef) by now destruct c.
    cbn [same_object].
    set (s1 := snd (splice (observableResults_ (self s)) i 1 [] s)).
    assert (Hobs1 : observed s1 = observed s).
    { unfold s1. rewrite observed_splice.
      rewrite firstn_all2, skipn_all2 by lia. now rewrite app_nil_r. }
    destruct (IH (S i) c s1) as (s' & Hrun & Hself & Hobs);
      [rewrite Hobs1; lia |].
    exists s'. split; [exact Hrun | split; [exact Hself | congruence]].
Qed.

(** With nothing kept, the first loop removes at the indices 0, 1, 2, ... of
    an array that shrinks under it: every second element stays. *)
Lemma deletion_pass_none_kept :
  forall rest before after c (s : State),
    observed s = before ++ after ->
    length after <= length rest ->
    exists s',
      for_each (deletion_body []) (length before) rest c s = (Ok c, s') /\
      observed s' = before ++ odd_positions after.
Proof.
  induction rest as [|entry rest IH]; intros before after c s Hobs Hlen;
    cbn [for_each].
  - destruct after; [|simpl in Hlen; lia]. now exists s.
  - unfold bind. rewrite deletion_body_run.
    replace (nth c [] None) with (@None EntryRef) by now destruct c.
    cbn [same_object].
    set (s1 := snd (splice (observableResults_ (self s)) (length before) 1 [] s)).
    assert (Hobs1 : observed s1 = remove_at (length before) (before ++ after)).
    { unfold s1. now rewrite observed_splice_delete, Hobs. }
    destruct after as [|x [|y after]].
    + destruct (deletion_pass_exhausted rest (S (length before)) c s1)
        as (s' & Hrun & _ & Hobs').
      { rewrite Hobs1, app_nil_r.
        replace (remove_at (length before) before) with before; [lia |].
        clear. induction before; simpl; congruence. }
      exists s'. split; [exact Hrun |]. rewrite Hobs', Hobs1, app_nil_r.
      simpl. rewrite app_nil_r. clear. induction before; simpl; congruence.
    + rewrite remove_at_app in Hobs1.
      destruct (deletion_pass_exhausted rest (S (length before)) c s1)
        as (s' & Hrun & _ & Hobs'); [rewrite Hobs1, app_nil_r; lia |].
      exists s'. split; [exact Hrun |]. now rewrite Hobs', Hobs1.
    + rewrite remove_at_app in Hobs1.
      destruct (IH (before ++ [y]) after c s1) as (s' & Hrun & Hobs').
      * now rewrite Hobs1, <- app_assoc.
      * simpl in Hlen. lia.
      * rewrite length_app, Nat.add_1_r in Hrun.
        exists s'. split; [exact Hrun |]. now rewrite Hobs', <- app_assoc.
Qed.

(** With nothing kept, the second loop adds the payload of every walked
    entry at the entry's index, in front of what was there. *)
Lemma insertion_pass_none_kept :
  forall rest before tail c (s : State),
    observed s = payloads deref before ++ tail ->
    exists s',
      for_each (insertion_body deref []) (length before) rest c s = (Ok c, s') /\
      observed s' = payloads deref (before ++ rest) ++ tail.
Proof.
  induction rest as [|entry rest IH]; intros before tail c s Hobs;
    cbn [for_each].
  - exists s. now rewrite app_nil_r.
  - unfold bind. rewrite insertion_body_run.
    replace (nth c [] None) with (@None EntryRef) by now destruct c.
    cbn [same_object].
    set (s1 := snd (splice (observableResults_ (self s)) (length before) 0
                           [payload (row (deref entry))] s)).
    destruct (IH (before ++ [entry]) tail c s1) as (s' & Hrun & Hobs').
    + unfold s1. rewrite observed_splice_insert, Hobs.
      unfold payloads. rewrite map_app, <- app_assoc. simpl.
      rewrite <- (length_map (fun e => payload (row (deref e))) before).
      apply insert_at_app.
    + rewrite length_app, Nat.add_1_r in Hrun.
      exists s'. split; [exact Hrun |]. now rewrite Hobs', <- app_assoc.
Qed.

(** X9.  When the comparator rejects every pair of an old and a new entry,
    and the observed array is no longer than the old result, the call returns
    and the array holds the payloads of the new entries followed by every
    second element of what it held (the elements at the odd indices): the
    first loop removes at the indices 0, 1, 2, ... of an array that shrinks
    under it.  With an empty new result, half of the old payloads stay. *)
Theorem applyDiff_replace_all (oldResults : option Relation)
        (newResults : Relation) (s : State) :
  (forall old new,
      In old (oldEntries_of oldResults) -> In new (entries newResults) ->
      compare (self s) old new = Ok false) ->
  length (observed s) <= length (oldEntries_of oldResults) ->
  fst (run_applyDiff oldResults newResults s) = Ok tt /\
  observed (snd (run_applyDiff oldResults newResults s))
  = payloads deref (entries newResults) ++ odd_positions (observed s).
Proof.
  intros Hnone Hlen. rewrite applyDiff_run. unfold keepOld_of, keepNew_of.
  assert (Hlcs : forall (collectFn : nat -> nat -> option EntryRef),
             longestCommonSubsequence (compare (self s)) collectFn
               (oldEntries_of oldResults) (entries newResults) = Ok []).
  { intros collectFn. rewrite lcs_collect.
    destruct (lcs_returns (compare (self s)) (oldEntries_of oldResults)
                (entries newResults) _ index_pair) as [pairs Hpairs].
    { intros a b Ha Hb. rewrite (Hnone a b Ha Hb). discriminate. }
    rewrite Hpairs. destruct pairs as [|p pairs]; [reflexivity |].
    destruct (lcs_matched _ _ _ _ Hpairs) as [Hmatched _].
    inversion Hmatched as [|? ? (a & b & Ha & Hb & Htrue) _]; subst.
    rewrite (Hnone a b) in Htrue by eauto using nth_error_In. discriminate. }
  rewrite !Hlcs.
  destruct (deletion_pass_none_kept (oldEntries_of oldResults) [] (observed s)
              0 s eq_refl Hlen) as (s1 & Hrun1 & Hobs1).
  simpl in Hrun1. rewrite Hrun1.
  destruct (insertion_pass_none_kept (entries newResults) []
              (odd_positions (observed s)) 0 s1 Hobs1) as (s2 & Hrun2 & Hobs2).
  simpl in Hrun2. rewrite Hrun2. simpl. auto.
Qed.

(** X10.  When the old and the new result have the same length and the
    comparator accepts the new entry at every index against the old entry at
    that index, the call returns and changes nothing: the array keeps the old
    payloads, whatever the payloads and the other fields of the new entries
    are. *)
Theorem applyDiff_ignores_unprojected_changes (oldResults : option Relation)
        (newResults : Relation) (s : State) :
  length (oldEntries_of oldResults) = length (entries newResults) ->
  (forall k old new,
      nth_error (oldEntries_of oldResults) k = Some old ->
      nth_error (entries newResults) k = Some new ->
      compare (self s) old new = Ok true) ->
  run_applyDiff oldResults newResults s = (Ok tt, s).
Proof.
  intros Hlen Hdiag.
  rewrite (surjective_pairing (run_applyDiff oldResults newResults s)).
  f_equal.
  - destruct (oldEntries_of oldResults) as [|old olds] eqn:Holds.
    + apply applyDiff_empty_returns. now left.
    + destruct (entries newResults) as [|new news] eqn:Hnews; [discriminate |].
      apply applyDiff_returns. intros column Hin.
      pose proof (Hdiag 0 old new eq_refl eq_refl) as Htrue.
      rewrite comparator_true_iff in Htrue.
      destruct (Htrue column Hin) as (evalFn & -> & _). discriminate.
  - apply applyDiff_diagonal; [exact Hlen |].
    intros k a b Ha Hb. rewrite (Hdiag k a b Ha Hb). discriminate.
Qed.

(** A call on results without repeated entries that have a common
    subsequence leaving out at most one old entry. *)
Lemma applyDiff_small_change (oldResults : option Relation)
      (newResults : Relation) (s : State) (common common' : list EntryRef) :
  NoDup (oldEntries_of oldResults) ->
  NoDup (entries newResults) ->
  observed s = payloads deref (oldEntries_of oldResults) ->
  resolved (self s) ->
  subseq common (oldEntries_of oldResults) ->
  subseq common' (entries newResults) ->
  Forall2 (fun old new => compare (self s) old new = Ok true) common common' ->
  length (oldEntries_of oldResults) <= S (length common) ->
  fst (run_applyDiff oldResults newResults s) = Ok tt /\
  exists keptOld keptNew,
    subseq keptOld (oldEntries_of oldResults) /\
    subseq keptNew (entries newResults) /\
    Forall2 (fun old new => compare (self s) old new = Ok true)
            keptOld keptNew /\
    observed (snd (run_applyDiff oldResults newResults s))
    = weave deref (entries newResults) keptNew (payloads deref keptOld).
Proof.
  intros HndO HndN Hobs Hres HsO HsN Hall Hone.
  destruct (lcs_returns (compare (self s)) (oldEntries_of oldResults)
              (entries newResults) _ index_pair) as [pairs Hpairs].
  { intros a b _ _. now apply comparator_returns. }
  pose proof (lcs_longest _ _ _ _ Hpairs common common' HsO HsN Hall) as Hlong.
  apply (applyDiff_one_removal getType EQ deref oldResults newResults s pairs);
    try assumption.
  lia.
Qed.

Lemma weave_positions (olds : list EntryRef)
      (accepts : EntryRef -> EntryRef -> Prop) :
  forall news keptOld keptNew,
    Forall2 accepts keptOld keptNew ->
    (forall old, In old keptOld -> In old olds) ->
    Forall2 (fun p new =>
               p = payload (row (deref new)) \/
               exists old,
                 In old olds /\ accepts old new /\
                 p = payload (row (deref old)))
            (weave deref news keptNew (payloads deref keptOld)) news.
Proof.
  induction news as [|entry news IH]; intros keptOld keptNew Hall Hin;
    cbn [weave]; [constructor |].
  destruct Hall as [|old k keptOld keptNew Hacc Hall].
  - constructor; [now left | apply (IH [] []); [constructor | exact Hin]].
  - cbn [payloads map]. destruct (Nat.eqb_spec k entry) as [->|Hne].
    + constructor.
      * right. exists old. split; [apply Hin; now left | now split].
      * apply IH; [exact Hall |]. intros o Ho. apply Hin. now right.
    + constructor; [now left |].
      apply (IH (old :: keptOld) (k :: keptNew)); [now constructor | exact Hin].
Qed.

(** X11.  For results without repeated entries that have a common
    subsequence leaving out at most one old entry, and an observed array
    holding the payloads of the old entries: after the call the array has one
    element for each new entry, in order, and the element is the payload of
    that entry or the payload of an old entry that the comparator accepts
    against it. *)
Theorem applyDiff_keeps_old_payloads (oldResults : option Relation)
        (newResults : Relation) (s : State) (common common' : list EntryRef) :
  NoDup (oldEntries_of oldResults) ->
  NoDup (entries newResults) ->
  observed s = payloads deref (oldEntries_of oldResults) ->
  resolved (self s) ->
  subseq common (oldEntries_of oldResults) ->
  subseq common' (entries newResults) ->
  Forall2 (fun old new => compare (self s) old new = Ok true) common common' ->
  length (oldEntries_of oldResults) <= S (length common) ->
  Forall2 (fun p new =>
             p = payload (row (deref new)) \/
             exists old,
               In old (oldEntries_of oldResults) /\
               compare (self s) old new = Ok true /\
               p = payload (row (deref old)))
          (observed (snd (run_applyDiff oldResults newResults s)))
          (entries newResults).
Proof.
  intros HndO HndN Hobs Hres HsO HsN Hall Hone.
  destruct (applyDiff_small_change oldResults newResults s common common'
              HndO HndN Hobs Hres HsO HsN Hall Hone)
    as (_ & keptOld & keptNew & HkO & _ & Hkept & ->).
  apply weave_positions; [exact Hkept |].
  intros old. now apply subseq_In.
Qed.

(** X12.  Under the same conditions, when entries that the comparator
    accepts as equal carry the same payload, the call returns and the array
    holds the payloads of the new entries in order: an update that removes at
    most one row, whatever it inserts, converges. *)
Theorem applyDiff_converges_small_change (oldResults : option Relation)
        (newResults : Relation) (s : State) (common common' : list EntryRef) :
  NoDup (oldEntries_of oldResults) ->
  NoDup (entries newResults) ->
  observed s = payloads deref (oldEntries_of oldResults) ->
  resolved (self s) ->
  subseq common (oldEntries_of oldResults) ->
  subseq common' (entries newResults) ->
  Forall2 (fun old new => compare (self s) old new = Ok true) common common' ->
  length (oldEntries_of oldResults) <= S (length common) ->
  (forall old new,
      In old (oldEntries_of oldResults) -> In new (entries newResults) ->
      compare (self s) old new = Ok true ->
      payload (row (deref old)) = payload (row (deref new))) ->
  fst (run_applyDiff oldResults newResults s) = Ok tt /\
  observed (snd (run_applyDiff oldResults newResults s))
  = payloads deref (entries newResults).
Proof.
  intros HndO HndN Hobs Hres HsO HsN Hall Hone Hsame.
  destruct (lcs_returns (compare (self s)) (oldEntries_of oldResults)
              (entries newResults) _ index_pair) as [pairs Hpairs].
  { intros a b _ _. now apply comparator_returns. }
  pose proof (lcs_longest _ _ _ _ Hpairs common common' HsO HsN Hall) as Hlong.
  apply (applyDiff_converges_one_removal getType EQ deref oldResults newResults
           s pairs); try assumption.
  lia.
Qed.

(** X13.  For results without repeated entries, a call removes at most as
    many elements as there are old entries outside a common subsequence, and
    adds at most as many as there are new entries outside it, for any common
    subsequence under the comparator. *)
Theorem applyDiff_change_bound (oldResults : option Relation)
        (newResults : Relation) (s : State) (common common' : list EntryRef) :
  NoDup (oldEntries_of oldResults) ->
  NoDup (entries newResults) ->
  resolved (self s) ->
  subseq common (oldEntries_of oldResults) ->
  subseq common' (entries newResults) ->
  Forall2 (fun old new => compare (self s) old new = Ok true) common common' ->
  exists made,
    changes (snd (run_applyDiff oldResults newResults s)) = changes s ++ made /\
    removals made <= length (oldEntries_of oldResults) - length common /\
    insertions made <= length (entries newResults) - length common.
Proof.
  intros HndO HndN Hres HsO HsN Hall.
  destruct (lcs_returns (compare (self s)) (oldEntries_of oldResults)
              (entries newResults) _ index_pair) as [pairs Hpairs].
  { intros a b _ _. now apply comparator_returns. }
  pose proof (lcs_longest _ _ _ _ Hpairs common common' HsO HsN Hall) as Hlong.
  destruct (applyDiff_counts getType EQ deref oldResults newResults s pairs
              HndO HndN Hpairs) as (made & Hch & Hins & Hrem).
  exists made. split; [exact Hch | split; lia].
Qed.



Lemma for_each_ext {Store X L : Type}
      (body body' : nat -> X -> L -> Store -> result L * Store) :
  forall array i locals s,
    (forall i x locals s, In x array ->
                          body' i x locals s = body i x locals s) ->
    for_each body' i array locals s = for_each body i array locals s.
Proof.
  induction array as [|x rest IH]; intros i locals s Hext; [reflexivity |].
  cbn [for_each]. unfold bind. rewrite (Hext i x locals s (or_introl eq_refl)).
  destruct (body i x locals s) as [[locals'|] s']; [|reflexivity].
  apply IH. intros i' y l' s'' Hy. apply Hext. now right.
Qed.

(** X15.  A call reads the entries through their values on the resolved
    columns and through the payloads of the new entries only: two heaps of
    entries that agree on these give the same outcome and the same store.
    The payloads of the old entries and the fields outside the projection
    are never read. *)
Theorem applyDiff_reads_projection
        (deref' : EntryRef -> RelationEntry Value Payload Column)
        (oldResults : option Relation) (newResults : Relation) (s : State) :
  (forall entry column,
      In entry (oldEntries_of oldResults) \/ In entry (entries newResults) ->
      In column (columns_ (self s)) ->
      getField (deref' entry) column = getField (deref entry) column) ->
  (forall entry,
      In entry (entries newResults) ->
      payload (row (deref' entry)) = payload (row (deref entry))) ->
  applyDiff getType EQ deref' oldResults newResults s
  = run_applyDiff oldResults newResults s.
Proof.
  intros Hfields Hpayloads. rewrite !applyDiff_run.
  assert (Hcompare : forall old new,
             In old (oldEntries_of oldResults) -> In new (entries newResults) ->
             comparator_ getType EQ deref' (self s) old new
             = compare (self s) old new).
  { intros old new Hold Hnew. unfold comparator_. apply every_ext.
    intros column Hin. unfold compareColumn.
    now rewrite (Hfields old column (or_introl Hold) Hin),
      (Hfields new column (or_intror Hnew) Hin). }
  unfold keepOld_of, keepNew_of.
  rewrite !(lcs_ext (comparator_ getType EQ deref' (self s)) (compare (self s))
              _ _ _ _ Hcompare).
  destruct (longestCommonSubsequence _ _ _ _) as [kept|]; [|reflexivity].
  destruct (for_each (deletion_body kept) 0 (oldEntries_of oldResults) 0 s)
    as [[c1|] s1]; [|reflexivity].
  destruct (longestCommonSubsequence _ _ _ _) as [kept'|]; [|reflexivity].
  rewrite (for_each_ext (insertion_body deref kept')
                        (insertion_body deref' kept')); [reflexivity |].
  intros i entry c s' Hin. unfold insertion_body.
  now rewrite (Hpayloads entry Hin).
Qed.

(** X16.  The second loop on its own: for new entries without repetition,
    kept entries that are a subsequence of them, and an array that holds one
    payload for each kept entry, the loop returns, removes nothing, adds one
    payload for each entry that is not kept, and leaves, for each new entry
    in order, the payload that was there for it when it is kept and its own
    payload otherwise. *)
Theorem insertion_loop_sound (news kept : list EntryRef)
        (present : list Payload) (s : State) :
  NoDup news ->
  subseq kept news ->
  length present = length kept ->
  observed s = present ->
  exists c s' made,
    for_each (insertion_body deref (map Some kept)) 0 news 0 s = (Ok c, s') /\
    observed s' = weave deref news kept present /\
    changes s' = changes s ++ made /\
    removals made = 0 /\
    insertions made = length news - length kept.
Proof.
  intros Hnd Hsub Hlen Hobs.
  destruct (insertion_pass_weave deref (map Some kept) news kept [] present 0 s
              Hnd Hsub (nth_map_Some kept) Hlen Hobs) as (c & s' & Hrun & Hobs').
  destruct (insertion_pass_counts deref (map Some kept) news kept 0 0 s
              Hnd Hsub (nth_map_Some kept))
    as (c' & s'' & made & Hrun' & Hch & Hrem & Hins).
  simpl in Hrun. rewrite Hrun in Hrun'. injection Hrun' as <- <-.
  exists c, s', made. auto.
Qed.

End ApplyDiffMore.

(** ** The further theorems at work on the small database *)

Lemma comparator_throws_iff_witness :
  comparator_ sample_getType tt sample_deref sample_wide_calculator 1 11
  = Throw.
Proof.
  apply (proj2 (comparator_throws_iff sample_getType tt sample_deref
                  sample_wide_calculator 1 11)).
  exists [0], 1, []. split; [reflexivity | split; [|reflexivity]].
  intros c [<-|[]]. exists Nat.eqb. split; reflexivity.
Defined.

Lemma comparator_false_iff_witness :
  comparator_ sample_getType tt sample_deref sample_wide_calculator 1 12
  = Ok false.
Proof.
  apply (proj2 (comparator_false_iff sample_getType tt sample_deref
                  sample_wide_calculator 1 12)).
  exists [], 0, [1], Nat.eqb.
  split; [reflexivity | split; [intros c [] | split; reflexivity]].
Defined.

Lemma comparator_symmetric_witness :
  comparator_ sample_getType tt sample_deref sample_calculator 1 12
  = comparator_ sample_getType tt sample_deref sample_calculator 12 1.
Proof.
  apply (comparator_symmetric sample_getType tt sample_deref
           sample_calculator 1 12).
  intros column evalFn [<-|[]] [= <-]. reflexivity.
Defined.

Lemma comparator_transitive_witness :
  comparator_ sample_getType tt sample_deref sample_calculator 1 11 = Ok true /\
  comparator_ sample_getType tt sample_deref sample_calculator 11 21 = Ok true /\
  comparator_ sample_getType tt sample_deref sample_calculator 1 21 = Ok true.
Proof.
  split; [reflexivity | split; [reflexivity |]].
  apply (comparator_transitive sample_getType tt sample_deref
           sample_calculator 1 11 21); try reflexivity.
  intros column evalFn [<-|[]] [= <-] _ _. reflexivity.
Defined.

Lemma comparator_select_all_witness :
  comparator_ sample_getType tt sample_deref
              (new_DiffCalculator sample_global sample_tables_query 7) 1 11
  = Ok true.
Proof.
  apply (proj2 (comparator_select_all sample_getType tt sample_deref
                  sample_global sample_tables_query 7 1 11 eq_refl)).
  intros table column [[<-|[]]|[= <-]] [<-|[]];
    exists Nat.eqb; split; reflexivity.
Defined.

Lemma detectColumns_empty_iff_witness :
  detectColumns_ sample_bare_query = [].
Proof.
  apply (proj2 (detectColumns_empty_iff sample_bare_query)).
  split; [reflexivity | split].
  - intros table [<-|[]]. reflexivity.
  - intros table [=].
Defined.

Lemma applyDiff_all_or_nothing_witness :
  sample_applyDiff (Some {| entries := [1; 2] |}) {| entries := [11] |}
                   {| self := sample_wide_calculator;
                      arrays := fun _ => [101; 102];
                      changes := [] |}
  = (Throw, {| self := sample_wide_calculator;
               arrays := fun _ => [101; 102];
               changes := [] |}).
Proof.
  destruct (applyDiff_all_or_nothing sample_getType tt sample_deref
              (Some {| entries := [1; 2] |}) {| entries := [11] |}
              {| self := sample_wide_calculator;
                 arrays := fun _ => [101; 102];
                 changes := [] |}) as [Hok|Hthrow].
  - discriminate Hok.
  - exact Hthrow.
Defined.

Lemma applyDiff_throws_iff_witness :
  fst (sample_applyDiff (Some {| entries := [1; 2] |}) {| entries := [11] |}
                        {| self := sample_wide_calculator;
                           arrays := fun _ => [101; 102];
                           changes := [] |})
  = Throw.
Proof.
  apply (proj2 (applyDiff_throws_iff sample_getType tt sample_deref
                  (Some {| entries := [1; 2] |}) {| entries := [11] |}
                  {| self := sample_wide_calculator;
                     arrays := fun _ => [101; 102];
                     changes := [] |})).
  exists 1, 11. simpl. auto.
Defined.

Lemma applyDiff_replace_all_witness :
  observed (snd (sample_applyDiff (Some {| entries := [1; 2; 3] |})
                                  {| entries := [15; 16] |}
                                  (sample_state [101; 102; 103])))
  = [115; 116; 102].
Proof.
  apply (applyDiff_replace_all sample_getType tt sample_deref
           (Some {| entries := [1; 2; 3] |}) {| entries := [15; 16] |}
           (sample_state [101; 102; 103])).
  - intros old new [<-|[<-|[<-|[]]]] [<-|[<-|[]]]; reflexivity.
  - simpl. lia.
Defined.

Lemma applyDiff_ignores_unprojected_changes_witness :
  sample_applyDiff (Some {| entries := [1; 2] |}) {| entries := [11; 12] |}
                   (sample_state [101; 102])
  = (Ok tt, sample_state [101; 102]).
Proof.
  apply (applyDiff_ignores_unprojected_changes sample_getType tt sample_deref
           (Some {| entries := [1; 2] |}) {| entries := [11; 12] |}
           (sample_state [101; 102])); [reflexivity |].
  intros [|[|[|k]]] old new Hold Hnew; simpl in Hold, Hnew;
    try discriminate; injection Hold as <-; injection Hnew as <-; reflexivity.
Defined.

Lemma applyDiff_keeps_old_payloads_witness :
  Forall2 (fun p new =>
             p = payload (row (sample_deref new)) \/
             exists old,
               In old [1; 2; 3] /\
               comparator_ sample_getType tt sample_deref sample_calculator
                           old new = Ok true /\
               p = payload (row (sample_deref old)))
          (observed (snd (sample_applyDiff (Some {| entries := [1; 2; 3] |})
                                           {| entries := [11; 13; 14] |}
                                           (sample_state [101; 102; 103]))))
          [11; 13; 14].
Proof.
  apply (applyDiff_keeps_old_payloads sample_getType tt sample_deref
           (Some {| entries := [1; 2; 3] |}) {| entries := [11; 13; 14] |}
           (sample_state [101; 102; 103]) [1; 3] [11; 13]).
  - repeat constructor; simpl; intuition discriminate.
  - repeat constructor; simpl; intuition discriminate.
  - reflexivity.
  - intros column [<-|[]]. discriminate.
  - apply subseq_take, subseq_skip, subseq_take, subseq_nil.
  - apply subseq_take, subseq_take, subseq_skip, subseq_nil.
  - repeat constructor.
  - simpl. lia.
Defined.

Lemma applyDiff_converges_small_change_witness :
  observed (snd (sample_applyDiff (Some {| entries := [1; 2; 3] |})
                                  {| entries := [1; 3; 4] |}
                                  (sample_state [101; 102; 103])))
  = [101; 103; 104].
Proof.
  apply (applyDiff_converges_small_change sample_getType tt sample_deref
           (Some {| entries := [1; 2; 3] |}) {| entries := [1; 3; 4] |}
           (sample_state [101; 102; 103]) [1; 3] [1; 3]).
  - repeat constructor; simpl; intuition discriminate.
  - repeat constructor; simpl; intuition discriminate.
  - reflexivity.
  - intros column [<-|[]]. discriminate.
  - apply subseq_take, subseq_skip, subseq_take, subseq_nil.
  - apply subseq_take, subseq_take, subseq_skip, subseq_nil.
  - repeat constructor.
  - simpl. lia.
  - intros old new [<-|[<-|[<-|[]]]] [<-|[<-|[<-|[]]]] H;
      try reflexivity; discriminate H.
Defined.

Lemma applyDiff_change_bound_witness :
  exists made,
    changes (snd (sample_applyDiff (Some {| entries := [1; 2; 3] |})
                                   {| entries := [11; 13; 14] |}
                                   (sample_state [101; 102; 103])))
    = [] ++ made /\
    removals made <= 3 - 2 /\
    insertions made <= 3 - 2.
Proof.
  apply (applyDiff_change_bound sample_getType tt sample_deref
           (Some {| entries := [1; 2; 3] |}) {| entries := [11; 13; 14] |}
           (sample_state [101; 102; 103]) [1; 3] [11; 13]).
  - repeat constructor; simpl; intuition discriminate.
  - repeat constructor; simpl; intuition discriminate.
  - intros column [<-|[]]. discriminate.
  - apply subseq_take, subseq_skip, subseq_take, subseq_nil.
  - apply subseq_take, subseq_take, subseq_skip, subseq_nil.
  - repeat constructor.
Defined.


Lemma applyDiff_reads_projection_witness :
  applyDiff sample_getType tt sample_deref_stale
            (Some {| entries := [1; 2; 3] |}) {| entries := [11; 13; 14] |}
            (sample_state [101; 102; 103])
  = sample_applyDiff (Some {| entries := [1; 2; 3] |})
                     {| entries := [11; 13; 14] |}
                     (sample_state [101; 102; 103]).
Proof.
  apply (applyDiff_reads_projection sample_getType tt sample_deref
           sample_deref_stale).
  - intros entry column _ _. reflexivity.
  - intros entry [<-|[<-|[<-|[]]]]; reflexivity.
Defined.

Lemma insertion_loop_sound_witness :
  exists c s' made,
    for_each (insertion_body sample_deref (map Some [11; 13])) 0
             [11; 13; 14] 0 (sample_state [101; 103])
    = (Ok c, s') /\
    observed s' = [101; 103; 114] /\
    changes s' = [] ++ made /\
    removals made = 0 /\
    insertions made = 3 - 2.
Proof.
  apply (insertion_loop_sound sample_deref [11; 13; 14] [11; 13] [101; 103]
           (sample_state [101; 103])).
  - repeat constructor; simpl; intuition discriminate.
  - apply subseq_take, subseq_take, subseq_skip, subseq_nil.
  - reflexivity.
  - reflexivity.
Defined.
